(** * Lossless DSP primitives and bit-level coders of the WebP codec core

    Shallow embedding of [src/testc/lossless_dsp/wrapper.c] (predictors,
    green subtraction, color transform) and of the lossy/lossless bit
    coders used by [src/testc/bitio/wrapper.c].  A 32-bit packed pixel is a
    [Z] in [0, 2^32); C's unsigned wrap-around is written out with [u32],
    the signed casts with [i32] and [i8]. *)

From Stdlib Require Import ZArith Lia List Bool Btauto.
Import ListNotations.
Open Scope Z_scope.

(** ** Machine integers *)

(** [(uint32_t)x] *)
Definition u32 (x : Z) : Z := x mod 2 ^ 32.

(** [(int)x] for a 32-bit value (two's complement). *)
Definition i32 (x : Z) : Z :=
  let y := x mod 2 ^ 32 in if y <? 2 ^ 31 then y else y - 2 ^ 32.

(** [(int8_t)x] *)
Definition i8 (x : Z) : Z :=
  let y := x mod 256 in if y <? 128 then y else y - 256.

(** [(x >> (8*k)) & 0xff]: lane [k] of a packed pixel
    (0 = blue, 1 = green, 2 = red, 3 = alpha). *)
Definition byte_at (k x : Z) : Z := Z.land (Z.shiftr x (8 * k)) 255.

(** [((uint32_t)a << 24) | (r << 16) | (g << 8) | b] *)
Definition pack (a r g b : Z) : Z :=
  Z.lor (Z.lor (Z.lor (Z.shiftl a 24) (Z.shiftl r 16)) (Z.shiftl g 8)) b.

Definition is_byte (x : Z) : Prop := 0 <= x < 2 ^ 8.
Definition is_u32 (x : Z) : Prop := 0 <= x < 2 ^ 32.

(** ** [lossless_dsp/wrapper.c]: helpers *)

Definition Average2 (a0 a1 : Z) : Z :=
  u32 (Z.shiftr (Z.land (Z.lxor a0 a1) 0xfefefefe) 1 + Z.land a0 a1).

Definition Average3 (a0 a1 a2 : Z) : Z := Average2 (Average2 a0 a2) a1.

Definition Average4 (a0 a1 a2 a3 : Z) : Z :=
  Average2 (Average2 a0 a1) (Average2 a2 a3).

(** [a] is a [uint32_t]; [~a] is its 32-bit complement. *)
Definition Clip255 (a : Z) : Z :=
  if a <? 256 then a else Z.shiftr (u32 (Z.lnot a)) 24.

Definition AddSubtractComponentFull (a b c : Z) : Z := Clip255 (u32 (a + b - c)).

(** The lanes are in [0, 255], so the shifts of the final [|] do not wrap. *)
Definition ClampedAddSubtractFull (c0 c1 c2 : Z) : Z :=
  let a := AddSubtractComponentFull (Z.shiftr c0 24) (Z.shiftr c1 24) (Z.shiftr c2 24) in
  let r := AddSubtractComponentFull (Z.land (Z.shiftr c0 16) 255)
             (Z.land (Z.shiftr c1 16) 255) (Z.land (Z.shiftr c2 16) 255) in
  let g := AddSubtractComponentFull (Z.land (Z.shiftr c0 8) 255)
             (Z.land (Z.shiftr c1 8) 255) (Z.land (Z.shiftr c2 8) 255) in
  let b := AddSubtractComponentFull (Z.land c0 255) (Z.land c1 255) (Z.land c2 255) in
  pack a r g b.

(** C's [/] on [int] truncates toward zero: [Z.quot]. *)
Definition AddSubtractComponentHalf (a b : Z) : Z := Clip255 (u32 (a + Z.quot (a - b) 2)).

Definition ClampedAddSubtractHalf (c0 c1 c2 : Z) : Z :=
  let ave := Average2 c0 c1 in
  let a := AddSubtractComponentHalf (Z.shiftr ave 24) (Z.shiftr c2 24) in
  let r := AddSubtractComponentHalf (Z.land (Z.shiftr ave 16) 255) (Z.land (Z.shiftr c2 16) 255) in
  let g := AddSubtractComponentHalf (Z.land (Z.shiftr ave 8) 255) (Z.land (Z.shiftr c2 8) 255) in
  let b := AddSubtractComponentHalf (Z.land (Z.shiftr ave 0) 255) (Z.land (Z.shiftr c2 0) 255) in
  pack a r g b.

Definition Sub3 (a b c : Z) : Z :=
  let pb := b - c in
  let pa := a - c in
  Z.abs pb - Z.abs pa.

Definition Select (a b c : Z) : Z :=
  let pa_minus_pb :=
    Sub3 (Z.shiftr a 24) (Z.shiftr b 24) (Z.shiftr c 24) +
    Sub3 (Z.land (Z.shiftr a 16) 255) (Z.land (Z.shiftr b 16) 255) (Z.land (Z.shiftr c 16) 255) +
    Sub3 (Z.land (Z.shiftr a 8) 255) (Z.land (Z.shiftr b 8) 255) (Z.land (Z.shiftr c 8) 255) +
    Sub3 (Z.land a 255) (Z.land b 255) (Z.land c 255) in
  if pa_minus_pb <=? 0 then a else b.

Definition ARGB_BLACK : Z := 0xff000000.

(** ** Predictors

    A predictor reads [*left] and [top[-1]], [top[0]], [top[1]].  A read is
    [None] when the location is not readable, so a predictor that returns
    [Some] read only readable neighbours. *)

Definition bind_opt {A B : Type} (o : option A) (f : A -> option B) : option B :=
  match o with Some x => f x | None => None end.

Notation "'let*' x ':=' e 'in' k" := (bind_opt e (fun x => k))
  (at level 200, x name, e at level 100, k at level 200).

Definition PredFunc : Type := option Z -> (Z -> option Z) -> option Z.

Definition Pred0 : PredFunc := fun left top => Some ARGB_BLACK.
Definition Pred1 : PredFunc := fun left top => left.
Definition Pred2 : PredFunc := fun left top => top 0.
Definition Pred3 : PredFunc := fun left top => top 1.
Definition Pred4 : PredFunc := fun left top => top (-1).
Definition Pred5 : PredFunc := fun left top =>
  let* l := left in let* t := top 0 in let* tr := top 1 in Some (Average3 l t tr).
Definition Pred6 : PredFunc := fun left top =>
  let* l := left in let* tl := top (-1) in Some (Average2 l tl).
Definition Pred7 : PredFunc := fun left top =>
  let* l := left in let* t := top 0 in Some (Average2 l t).
Definition Pred8 : PredFunc := fun left top =>
  let* tl := top (-1) in let* t := top 0 in Some (Average2 tl t).
Definition Pred9 : PredFunc := fun left top =>
  let* t := top 0 in let* tr := top 1 in Some (Average2 t tr).
Definition Pred10 : PredFunc := fun left top =>
  let* l := left in let* tl := top (-1) in let* t := top 0 in let* tr := top 1 in
  Some (Average4 l tl t tr).
Definition Pred11 : PredFunc := fun left top =>
  let* t := top 0 in let* l := left in let* tl := top (-1) in Some (Select t l tl).
Definition Pred12 : PredFunc := fun left top =>
  let* l := left in let* t := top 0 in let* tl := top (-1) in
  Some (ClampedAddSubtractFull l t tl).
Definition Pred13 : PredFunc := fun left top =>
  let* l := left in let* t := top 0 in let* tl := top (-1) in
  Some (ClampedAddSubtractHalf l t tl).

Definition kPredictors : list PredFunc :=
  [Pred0; Pred1; Pred2; Pred3; Pred4; Pred5; Pred6;
   Pred7; Pred8; Pred9; Pred10; Pred11; Pred12; Pred13].

Definition c_predictor (mode : Z) (left : option Z) (top : Z -> option Z) : option Z :=
  if (mode <? 0) || (mode >? 13) then Some 0
  else nth (Z.to_nat mode) kPredictors (fun _ _ => None) left top.

(** A readable top row: [top[-1] = tl], [top[0] = t], [top[1] = tr]. *)
Definition top_row (tl t tr : Z) : Z -> option Z :=
  fun k => if k =? -1 then Some tl else if k =? 0 then Some t
           else if k =? 1 then Some tr else None.

(** ** Color transforms

    The C functions loop over [num_pixels] pixels of an array; the array is a
    list here and [num_pixels] is its length.  Each pixel is processed on its
    own, so the in-place [c_subtract_green] and [c_transform_color] are maps. *)

Definition add_green_px (argb : Z) : Z :=
  let green := Z.land (Z.shiftr argb 8) 255 in
  let red_blue := Z.land argb 0x00ff00ff in
  let red_blue := u32 (red_blue + Z.lor (Z.shiftl green 16) green) in
  let red_blue := Z.land red_blue 0x00ff00ff in
  Z.lor (Z.land argb 0xff00ff00) red_blue.

Definition c_add_green (src : list Z) : list Z := map add_green_px src.

(** [argb] is the pixel read as an [int]. *)
Definition subtract_green_px (px : Z) : Z :=
  let argb := i32 px in
  let green := Z.land (Z.shiftr argb 8) 255 in
  let new_r := Z.land (Z.land (Z.shiftr argb 16) 255 - green) 255 in
  let new_b := Z.land (Z.land (Z.shiftr argb 0) 255 - green) 255 in
  Z.lor (Z.lor (Z.land (u32 argb) 0xff00ff00) (Z.shiftl new_r 16)) new_b.

Definition c_subtract_green (argb_data : list Z) : list Z := map subtract_green_px argb_data.

(** [CMultipliers]: three [uint8_t] fields, read through [(int8_t)] casts. *)
Record CMultipliers : Type := {
  green_to_red : Z;
  green_to_blue : Z;
  red_to_blue : Z
}.

(** [((int)color_pred * color) >> 5]: arithmetic shift. *)
Definition ColorTransformDelta (color_pred color : Z) : Z := Z.shiftr (color_pred * color) 5.

Definition transform_color_px (m : CMultipliers) (argb : Z) : Z :=
  let green := i8 (Z.shiftr argb 8) in
  let red := i8 (Z.shiftr argb 16) in
  let new_red := Z.land red 255 in
  let new_blue := Z.land argb 255 in
  let new_red := new_red - ColorTransformDelta (i8 (green_to_red m)) green in
  let new_red := Z.land new_red 255 in
  let new_blue := new_blue - ColorTransformDelta (i8 (green_to_blue m)) green in
  let new_blue := new_blue - ColorTransformDelta (i8 (red_to_blue m)) red in
  let new_blue := Z.land new_blue 255 in
  Z.lor (Z.lor (Z.land argb 0xff00ff00) (Z.shiftl new_red 16)) new_blue.

Definition c_transform_color (m : CMultipliers) (data : list Z) : list Z :=
  map (transform_color_px m) data.

Definition transform_color_inverse_px (m : CMultipliers) (argb : Z) : Z :=
  let green := i8 (Z.shiftr argb 8) in
  let red := Z.shiftr argb 16 in
  let new_red := Z.land red 255 in
  let new_blue := Z.land argb 255 in
  let new_red := new_red + ColorTransformDelta (i8 (green_to_red m)) green in
  let new_red := Z.land new_red 255 in
  let new_blue := new_blue + ColorTransformDelta (i8 (green_to_blue m)) green in
  let new_blue := new_blue + ColorTransformDelta (i8 (red_to_blue m)) (i8 new_red) in
  let new_blue := Z.land new_blue 255 in
  Z.lor (Z.lor (Z.land argb 0xff00ff00) (Z.shiftl new_red 16)) new_blue.

Definition c_transform_color_inverse (m : CMultipliers) (src : list Z) : list Z :=
  map (transform_color_inverse_px m) src.

(** ** Raw LSB-first bit packer (lossless path)

    [bitio/wrapper.c] drives [VP8LBitWriterInit], [VP8LPutBits],
    [VP8LBitWriterFinish], [VP8LInitBitReader] and [VP8LReadBits] from
    [src/utils/bit_writer_utils.c] and [src/utils/bit_reader_utils.c], which
    it includes but which are not part of the sources here. *)

(** Modelled from the spec: the lossless bit writer state (VP8LBitWriter):
    a pending-bits accumulator, the number of pending bits, the output bytes
    and the error flag.  The accumulator is an unbounded integer: the spec
    requires it wide enough that no call overflows it.  The output buffer
    grows as needed (allocation failure is not modelled). *)
Record LBitWriter : Type := {
  lw_bits : Z;
  lw_used : Z;
  lw_out : list Z;
  lw_error : bool
}.

(** Modelled from the spec: VP8LBitWriterInit. *)
Definition VP8LBitWriterInit : LBitWriter :=
  {| lw_bits := 0; lw_used := 0; lw_out := []; lw_error := false |}.

(** Modelled from the spec: "while pending_count >= 8, shift out the low
    byte, append to the output buffer, and reduce pending_count by 8". *)
Fixpoint lw_flush (fuel : nat) (w : LBitWriter) : LBitWriter :=
  match fuel with
  | O => w
  | S f =>
      if 8 <=? lw_used w then
        lw_flush f {| lw_bits := Z.shiftr (lw_bits w) 8; lw_used := lw_used w - 8;
                      lw_out := lw_out w ++ [Z.land (lw_bits w) 255];
                      lw_error := lw_error w |}
      else w
  end.

(** Modelled from the spec: VP8LPutBits.  [nbits] outside [0, 24] sets the
    error flag; a writer in error ignores further calls. *)
Definition VP8LPutBits (w : LBitWriter) (value nbits : Z) : LBitWriter :=
  if lw_error w then w
  else if (nbits <? 0) || (24 <? nbits) then
    {| lw_bits := lw_bits w; lw_used := lw_used w; lw_out := lw_out w; lw_error := true |}
  else
    let w' := {| lw_bits := Z.lor (lw_bits w)
                              (Z.shiftl (Z.land value (Z.shiftl 1 nbits - 1)) (lw_used w));
                 lw_used := lw_used w + nbits; lw_out := lw_out w;
                 lw_error := false |} in
    lw_flush (Z.to_nat (lw_used w')) w'.

(** Modelled from the spec: VP8LBitWriterFinish pads the last partial byte
    with zero bits; it fails on a writer in error. *)
Definition VP8LBitWriterFinish (w : LBitWriter) : option (list Z) :=
  if lw_error w then None
  else Some (lw_out w ++ (if 0 <? lw_used w then [Z.land (lw_bits w) 255] else [])).

(** [c_lossless_write_sequence]: the (value, nbits) pairs, then finish. *)
Definition c_lossless_write_sequence (pairs : list (Z * Z)) : option (list Z) :=
  VP8LBitWriterFinish
    (fold_left (fun w vn => VP8LPutBits w (fst vn) (snd vn)) pairs VP8LBitWriterInit).

(** Modelled from the spec: the lossless bit reader state (VP8LBitReader):
    accumulator, number of valid bits in it, the unread input bytes and an
    end-of-stream flag. *)
Record LBitReader : Type := {
  lr_val : Z;
  lr_bits : Z;
  lr_in : list Z;
  lr_eos : bool
}.

(** Modelled from the spec: VP8LInitBitReader. *)
Definition VP8LInitBitReader (data : list Z) : LBitReader :=
  {| lr_val := 0; lr_bits := 0; lr_in := data; lr_eos := false |}.

(** Modelled from the spec: refill the accumulator with whole bytes until it
    holds at least [nbits] bits.  Past the end of the input the missing bits
    read as zero and the end-of-stream flag is set. *)
Fixpoint lr_refill (fuel : nat) (nbits : Z) (r : LBitReader) : LBitReader :=
  match fuel with
  | O => r
  | S f =>
      if lr_bits r <? nbits then
        let '(b, rest, eos) :=
          match lr_in r with
          | [] => (0, [], true)
          | b :: rest => (b, rest, lr_eos r)
          end in
        lr_refill f nbits {| lr_val := Z.lor (lr_val r) (Z.shiftl b (lr_bits r));
                             lr_bits := lr_bits r + 8; lr_in := rest; lr_eos := eos |}
      else r
  end.

(** Modelled from the spec: VP8LReadBits extracts the low [nbits] bits,
    zero-extended; [nbits] outside [0, 24] returns 0 and sets the
    end-of-stream flag. *)
Definition VP8LReadBits (r : LBitReader) (nbits : Z) : Z * LBitReader :=
  if (nbits <? 0) || (24 <? nbits) then
    (0, {| lr_val := lr_val r; lr_bits := lr_bits r; lr_in := lr_in r; lr_eos := true |})
  else
    let r := lr_refill (Z.to_nat nbits) nbits r in
    (Z.land (lr_val r) (Z.shiftl 1 nbits - 1),
     {| lr_val := Z.shiftr (lr_val r) nbits; lr_bits := lr_bits r - nbits;
        lr_in := lr_in r; lr_eos := lr_eos r |}).

Fixpoint lr_read_seq (r : LBitReader) (nbits : list Z) : list Z :=
  match nbits with
  | [] => []
  | n :: ns => let '(v, r') := VP8LReadBits r n in v :: lr_read_seq r' ns
  end.

(** [c_lossless_read_sequence] *)
Definition c_lossless_read_sequence (data : list Z) (nbits : list Z) : list Z :=
  lr_read_seq (VP8LInitBitReader data) nbits.

(** The stream as one integer: bytes little-endian, and the (value, nbits)
    pairs packed LSB-first. *)
Definition le_int (bytes : list Z) : Z := fold_right (fun b t => b + 256 * t) 0 bytes.

Definition packed_value (pairs : list (Z * Z)) : Z :=
  fold_right (fun vn t => fst vn + 2 ^ snd vn * t) 0 pairs.

Definition packed_len (pairs : list (Z * Z)) : Z :=
  fold_right (fun vn t => snd vn + t) 0 pairs.

Definition pair_ok (vn : Z * Z) : Prop := 0 <= snd vn <= 24 /\ 0 <= fst vn < 2 ^ snd vn.

(** Writer invariant: the bytes out and the pending bits hold the integer
    [X]; [lw_pos] is the number of bits written. *)
Definition lw_pos (w : LBitWriter) : Z := 8 * Z.of_nat (length (lw_out w)) + lw_used w.

Definition lw_inv (X : Z) (w : LBitWriter) : Prop :=
  lw_error w = false /\
  le_int (lw_out w) + lw_bits w * 2 ^ (8 * Z.of_nat (length (lw_out w))) = X /\
  0 <= lw_bits w < 2 ^ lw_used w /\ 0 <= lw_used w /\ Forall is_byte (lw_out w).

(** Reader invariant: the accumulator and the unread bytes hold [Y]. *)
Definition lr_inv (Y : Z) (r : LBitReader) : Prop :=
  0 <= lr_bits r /\ 0 <= lr_val r < 2 ^ lr_bits r /\ Forall is_byte (lr_in r) /\
  lr_val r + le_int (lr_in r) * 2 ^ lr_bits r = Y.

(** ** Binary range coder (lossy path)

    [bitio/wrapper.c] drives [VP8BitWriterInit], [VP8PutBit],
    [VP8BitWriterFinish], [VP8InitBitReader] and [VP8GetBit] from the same
    included files, which are not part of the sources here either. *)

(** Modelled from the spec: the range encoder state.  [re_range] is the
    width of the current interval, in [128, 255] between calls;
    [re_nbits] counts the bits shifted out by renormalisation.  The bits
    shifted out and the current 8-bit window are kept together in the
    unbounded integer [re_low], so the lower sub-range skipped by a 1 bit is
    accounted for exactly, carries included.  The output grows as needed:
    the size budget and its error flag are not modelled. *)
Record RangeEncoder : Type := {
  re_low : Z;
  re_range : Z;
  re_nbits : Z
}.

(** Modelled from the spec: VP8BitWriterInit. *)
Definition VP8BitWriterInit : RangeEncoder :=
  {| re_low := 0; re_range := 255; re_nbits := 0 |}.

(** Modelled from the spec: the split shared by encoder and decoder,
    [1 + (((range - 1) * probability) >> 8)]. *)
Definition split_of (range probability : Z) : Z :=
  1 + Z.shiftr ((range - 1) * probability) 8.

(** Modelled from the spec: "while range < 128, left-shift range by 1 and
    emit one bit".  Eight rounds suffice for any range in [1, 255]. *)
Fixpoint re_renorm (fuel : nat) (e : RangeEncoder) : RangeEncoder :=
  match fuel with
  | O => e
  | S f =>
      if re_range e <? 128 then
        re_renorm f {| re_low := Z.shiftl (re_low e) 1; re_range := Z.shiftl (re_range e) 1;
                       re_nbits := re_nbits e + 1 |}
      else e
  end.

(** Modelled from the spec: VP8PutBit.  A zero [bit] keeps the lower
    [split]-sized sub-range, any other value the upper one. *)
Definition VP8PutBit (e : RangeEncoder) (bit probability : Z) : RangeEncoder :=
  let split := split_of (re_range e) probability in
  if bit =? 0 then
    re_renorm 8 {| re_low := re_low e; re_range := split; re_nbits := re_nbits e |}
  else
    re_renorm 8 {| re_low := re_low e + split; re_range := re_range e - split;
                   re_nbits := re_nbits e |}.

(** [be_bytes k x]: the low [8 k] bits of [x] as [k] bytes, most significant
    first. *)
Fixpoint be_bytes (k : nat) (x : Z) : list Z :=
  match k with
  | O => []
  | S k' => Z.land (Z.shiftr x (8 * Z.of_nat k')) 255 :: be_bytes k' x
  end.

(** Modelled from the spec: VP8BitWriterFinish flushes the bits shifted out
    and the 8-bit window, most significant first, with the last byte padded
    by zero bits. *)
Definition VP8BitWriterFinish (e : RangeEncoder) : list Z :=
  let total := re_nbits e + 8 in
  let pad := (8 - total mod 8) mod 8 in
  be_bytes (Z.to_nat ((total + pad) / 8)) (Z.shiftl (re_low e) pad).

(** [c_bool_write_sequence]: the (bit, probability) pairs, then finish.  The
    wrapper's failure branch tests the error flag, which the model never
    sets. *)
Definition c_bool_write_sequence (pairs : list (Z * Z)) : list Z :=
  VP8BitWriterFinish
    (fold_left (fun e bp => VP8PutBit e (fst bp) (snd bp)) pairs VP8BitWriterInit).

(** Modelled from the spec: the decoder's input, pulled one bit at a time,
    most significant bit of each byte first: the unread bytes, the current
    byte and the number of its bits not yet read.  Past the end of the input
    the bits read as zero and the end-of-stream flag is set. *)
Record BitStream : Type := {
  bs_in : list Z;
  bs_cur : Z;
  bs_left : Z;
  bs_eos : bool
}.

Definition bs_init (data : list Z) : BitStream :=
  {| bs_in := data; bs_cur := 0; bs_left := 0; bs_eos := false |}.

Definition bs_next (s : BitStream) : Z * BitStream :=
  let '(cur, nleft, rest, eos) :=
    if bs_left s =? 0 then
      match bs_in s with
      | [] => (0, 8, [], true)
      | b :: rest => (b, 8, rest, bs_eos s)
      end
    else (bs_cur s, bs_left s, bs_in s, bs_eos s) in
  (Z.land (Z.shiftr cur (nleft - 1)) 1,
   {| bs_in := rest; bs_cur := cur; bs_left := nleft - 1; bs_eos := eos |}).

(** Modelled from the spec: the range decoder state. *)
Record RangeDecoder : Type := {
  rd_value : Z;
  rd_range : Z;
  rd_stream : BitStream
}.

(** Shift [n] input bits into [v]. *)
Fixpoint rd_load (n : nat) (v : Z) (s : BitStream) : Z * BitStream :=
  match n with
  | O => (v, s)
  | S n' => let '(b, s') := bs_next s in rd_load n' (Z.lor (Z.shiftl v 1) b) s'
  end.

(** Modelled from the spec: VP8InitBitReader loads the first 8 bits as the
    value; the range starts at 255 as in the encoder. *)
Definition VP8InitBitReader (data : list Z) : RangeDecoder :=
  let '(v, s) := rd_load 8 0 (bs_init data) in
  {| rd_value := v; rd_range := 255; rd_stream := s |}.

(** Modelled from the spec: the decoder's renormalisation consumes one bit
    per left shift of the range. *)
Fixpoint rd_renorm (fuel : nat) (d : RangeDecoder) : RangeDecoder :=
  match fuel with
  | O => d
  | S f =>
      if rd_range d <? 128 then
        let '(b, s') := bs_next (rd_stream d) in
        rd_renorm f {| rd_value := Z.lor (Z.shiftl (rd_value d) 1) b;
                       rd_range := Z.shiftl (rd_range d) 1; rd_stream := s' |}
      else d
  end.

(** Modelled from the spec: VP8GetBit compares the value against the split
    to decide between 0 and 1. *)
Definition VP8GetBit (d : RangeDecoder) (probability : Z) : Z * RangeDecoder :=
  let split := split_of (rd_range d) probability in
  if split <=? rd_value d then
    (1, rd_renorm 8 {| rd_value := rd_value d - split; rd_range := rd_range d - split;
                       rd_stream := rd_stream d |})
  else
    (0, rd_renorm 8 {| rd_value := rd_value d; rd_range := split;
                       rd_stream := rd_stream d |}).

Fixpoint rd_read_seq (d : RangeDecoder) (probs : list Z) : list Z :=
  match probs with
  | [] => []
  | p :: ps => let '(b, d') := VP8GetBit d p in b :: rd_read_seq d' ps
  end.

(** [c_bool_read_sequence] *)
Definition c_bool_read_sequence (data : list Z) (probs : list Z) : list Z :=
  rd_read_seq (VP8InitBitReader data) probs.

(** A (bit, probability) pair the claims cover. *)
Definition bp_ok (bp : Z * Z) : Prop := (fst bp = 0 \/ fst bp = 1) /\ 1 <= snd bp <= 255.

(** The encoder run over a list of pairs. *)
Definition enc_run (pairs : list (Z * Z)) (e : RangeEncoder) : RangeEncoder :=
  fold_left (fun e bp => VP8PutBit e (fst bp) (snd bp)) pairs e.

(** Bytes as one big-endian integer, and the unread bits of a [BitStream]
    as an integer of [bs_len] bits. *)
Fixpoint be_int (bytes : list Z) : Z :=
  match bytes with
  | [] => 0
  | b :: rest => b * 2 ^ (8 * Z.of_nat (length rest)) + be_int rest
  end.

Definition bs_len (s : BitStream) : Z := bs_left s + 8 * Z.of_nat (length (bs_in s)).

Definition bs_int (s : BitStream) : Z :=
  bs_cur s mod 2 ^ bs_left s * 2 ^ (8 * Z.of_nat (length (bs_in s))) + be_int (bs_in s).

Definition bs_inv (s : BitStream) : Prop := 0 <= bs_left s <= 8 /\ Forall is_byte (bs_in s).

(** Decoder invariant: the whole stream is the integer [Z0] of [M] bits;
    the bits consumed so far read as [rd_value + re_low], the rest as
    [bs_int]. *)
Definition dec_inv (Z0 M : Z) (e : RangeEncoder) (d : RangeDecoder) : Prop :=
  rd_range d = re_range e /\ bs_inv (rd_stream d) /\
  bs_len (rd_stream d) = M - 8 - re_nbits e /\
  (rd_value d + re_low e) * 2 ^ bs_len (rd_stream d) + bs_int (rd_stream d) = Z0.

(** ** Allocation stubs ([bitio/stubs.c])

    [uint64_t] arithmetic wraps modulo [2^64]; [size_t] is 64 bits wide. *)

(** [(uint64_t)x] *)
Definition u64 (x : Z) : Z := x mod 2 ^ 64.

(** [WebPSafeMalloc]: [Some n] when the stub calls [malloc(n)], [None] when
    it returns NULL without calling it.  What [malloc] returns is not
    modelled. *)
Definition WebPSafeMalloc (nmemb size : Z) : option Z :=
  let total := u64 (nmemb * size) in
  if negb (nmemb =? 0) && negb (total / nmemb =? size) then None
  else if total =? 0 then None
  else Some total.

(** [WebPSafeCalloc]: [Some (nmemb, size)] when the stub calls
    [calloc(nmemb, size)], [None] when it returns NULL without calling it. *)
Definition WebPSafeCalloc (nmemb size : Z) : option (Z * Z) :=
  let total := u64 (nmemb * size) in
  if negb (nmemb =? 0) && negb (total / nmemb =? size) then None
  else if total =? 0 then None
  else Some (nmemb, size).

(** The top row with [top[j]] made unreadable. *)
Definition hide_top (j : Z) (top : Z -> option Z) : Z -> option Z :=
  fun k => if k =? j then None else top k.

(** Sum over the four byte lanes. *)
Definition sum_lanes (f : Z -> Z) : Z := f 3 + f 2 + f 1 + f 0.

(** ** Exhaustive lane checks

    Boolean checks over all byte values (or over a range of intermediate
    values), evaluated by [vm_compute] in the lane lemmas below. *)

Definition all_bytes (P : Z -> bool) : bool :=
  forallb (fun n => P (Z.of_nat n)) (seq 0 256).

Definition all_in_range (lo : Z) (len : nat) (P : Z -> bool) : bool :=
  forallb (fun n => P (lo + Z.of_nat n)) (seq 0 len).

(** Lane [k] of [((a ^ b) & 0xfefefefe) >> 1] and of [a & b]. *)
Definition avg_hi (x y : Z) : Z := Z.shiftr (Z.land (Z.lxor x y) 254) 1.
Definition avg_lo (x y : Z) : Z := Z.land x y.

Definition avg_lane_ok (x y : Z) : bool :=
  (0 <=? avg_hi x y) && (avg_hi x y <? 256) && (0 <=? avg_lo x y) && (avg_lo x y <? 256) &&
  (avg_hi x y + avg_lo x y =? (x + y) / 2).

(** Per-lane floor average. *)
Definition lane_avg (k a b : Z) : Z := (byte_at k a + byte_at k b) / 2.

Definition clamp255 (v : Z) : Z := Z.max 0 (Z.min 255 v).

Definition clip_ok (v : Z) : bool := Clip255 (u32 v) =? clamp255 v.

(** ** Bit-level lemmas *)

Lemma testbit_high (x n j : Z) : 0 <= x < 2 ^ n -> n <= j -> Z.testbit x j = false.
Proof.
  intros Hx Hj.
  assert (0 <= n) by (destruct (Z.lt_ge_cases n 0); [rewrite Z.pow_neg_r in Hx; lia | lia]).
  rewrite <- (Z.mod_small x (2 ^ n)) by lia.
  apply Z.mod_pow2_bits_high; lia.
Qed.

Lemma shiftl_bit (a n m : Z) :
  Z.testbit (Z.shiftl a n) m = (0 <=? m) && Z.testbit a (m - n).
Proof.
  destruct (Z.leb_spec 0 m).
  - rewrite Z.shiftl_spec by lia. reflexivity.
  - rewrite Z.testbit_neg_r by lia. reflexivity.
Qed.

Lemma shiftr_bit (a n m : Z) :
  Z.testbit (Z.shiftr a n) m = (0 <=? m) && Z.testbit a (m + n).
Proof.
  destruct (Z.leb_spec 0 m).
  - rewrite Z.shiftr_spec by lia. reflexivity.
  - rewrite Z.testbit_neg_r by lia. reflexivity.
Qed.

Lemma lnot_bit (a m : Z) :
  Z.testbit (Z.lnot a) m = (0 <=? m) && negb (Z.testbit a m).
Proof.
  destruct (Z.leb_spec 0 m).
  - rewrite Z.lnot_spec by lia. reflexivity.
  - rewrite !Z.testbit_neg_r by lia. reflexivity.
Qed.

Lemma high_bits (x n : Z) : 0 <= x < 2 ^ n -> forall j, n <= j -> Z.testbit x j = false.
Proof. intros; eapply testbit_high; eauto. Qed.

Ltac bits_rewrite :=
  repeat first
    [ rewrite Z.lor_spec | rewrite Z.land_spec | rewrite Z.lxor_spec
    | rewrite shiftl_bit | rewrite shiftr_bit | rewrite lnot_bit ].

(** Replaces every [Z.testbit x] of a bounded variable [x] by an opaque
    bit function together with the vanishing of its high bits. *)
Ltac abstract_bits :=
  repeat match goal with
  | H : 0 <= ?x < 2 ^ ?n |- context [Z.testbit ?x] =>
      is_var x;
      let Hb := fresh "Hb" in
      let Hn := fresh "Hn" in
      pose proof (high_bits x n H) as Hb;
      pose proof (Z.testbit_neg_r x) as Hn;
      let bx := fresh "bx" in
      set (bx := Z.testbit x) in *; clearbody bx; clear H
  end.

Ltac kill_high :=
  repeat match goal with
  | Hb : forall j, ?n <= j -> ?bx j = false |- context [?bx ?k] =>
      rewrite (Hb k) by lia
  | Hn : forall j, j < 0 -> ?bx j = false |- context [?bx ?k] =>
      rewrite (Hn k) by lia
  end.

Ltac enum_index i :=
  let rec go n :=
    lazymatch n with
    | 32 => idtac
    | _ =>
      let n' := eval cbv in (n + 1) in
      destruct (Z.eq_dec i n); [subst i | go n']
    end in
  go 0.

Ltac kill_const_high :=
  repeat match goal with
  | |- context [Z.testbit ?c ?k] =>
      let n := eval vm_compute in (Z.log2 c + 1) in
      lazymatch n with
      | Zpos _ => rewrite (testbit_high c n k) by lia
      end
  | |- context [Z.testbit ?c ?k] =>
      rewrite (testbit_high c 32 k) by lia
  end.

(** Proves an equality of bitwise expressions over 32-bit values whose
    variables carry bound hypotheses [0 <= x < 2 ^ n]. *)
Ltac bitwise_eq :=
  apply Z.bits_inj'; intros i Hi;
  bits_rewrite;
  destruct (Z.lt_ge_cases i 32) as [Hlt | Hge];
  [ abstract_bits; enum_index i; [ .. | lia ]; cbv -[andb orb xorb negb]; kill_high; try btauto
  | kill_const_high; abstract_bits; kill_high;
    repeat match goal with |- context [?a <=? ?b] => destruct (Z.leb_spec a b); try lia end;
    try btauto ].

Lemma pack_bytes (x : Z) : is_u32 x ->
  x = pack (byte_at 3 x) (byte_at 2 x) (byte_at 1 x) (byte_at 0 x).
Proof.
  unfold is_u32, pack, byte_at; intros Hx. bitwise_eq.
Qed.

Lemma lor_add (x y : Z) : Z.land x y = 0 -> Z.lor x y = x + y.
Proof.
  intros H. rewrite <- Z.lxor_lor by exact H.
  symmetry. apply Z.add_nocarry_lxor; exact H.
Qed.

Lemma pack_arith (a r g b : Z) :
  is_byte a -> is_byte r -> is_byte g -> is_byte b ->
  pack a r g b = a * 2 ^ 24 + r * 2 ^ 16 + g * 2 ^ 8 + b.
Proof.
  unfold is_byte, pack; intros Ha Hr Hg Hb.
  rewrite lor_add by bitwise_eq.
  rewrite lor_add by bitwise_eq.
  rewrite lor_add by bitwise_eq.
  rewrite !Z.shiftl_mul_pow2 by lia. ring.
Qed.

Lemma pack_u32 (a r g b : Z) :
  is_byte a -> is_byte r -> is_byte g -> is_byte b -> is_u32 (pack a r g b).
Proof.
  intros Ha Hr Hg Hb. rewrite pack_arith by assumption.
  unfold is_byte, is_u32 in *. lia.
Qed.

Lemma byte_at_pack (a r g b : Z) :
  is_byte a -> is_byte r -> is_byte g -> is_byte b ->
  byte_at 3 (pack a r g b) = a /\ byte_at 2 (pack a r g b) = r /\
  byte_at 1 (pack a r g b) = g /\ byte_at 0 (pack a r g b) = b.
Proof.
  unfold is_byte, pack, byte_at; intros Ha Hr Hg Hb.
  repeat split; bitwise_eq.
Qed.

Lemma all_bytes_spec (P : Z -> bool) : all_bytes P = true -> forall x, is_byte x -> P x = true.
Proof.
  unfold all_bytes, is_byte; intros H x Hx. rewrite forallb_forall in H.
  replace x with (Z.of_nat (Z.to_nat x)) by lia.
  apply H, in_seq. change (2 ^ 8) with 256 in Hx. lia.
Qed.

Lemma all_in_range_spec (lo : Z) (len : nat) (P : Z -> bool) :
  all_in_range lo len P = true -> forall x, lo <= x < lo + Z.of_nat len -> P x = true.
Proof.
  unfold all_in_range; intros H x Hx. rewrite forallb_forall in H.
  replace x with (lo + Z.of_nat (Z.to_nat (x - lo))) by lia.
  apply H, in_seq. lia.
Qed.

Lemma land255 (x : Z) : Z.land x 255 = x mod 256.
Proof. change 255 with (Z.ones 8). rewrite Z.land_ones by lia. reflexivity. Qed.

Lemma byte_at_byte (k x : Z) : is_byte (byte_at k x).
Proof.
  unfold is_byte, byte_at. rewrite land255. change (2 ^ 8) with 256.
  apply Z.mod_pos_bound. lia.
Qed.

Lemma shiftr24 (x : Z) : is_u32 x -> Z.shiftr x 24 = byte_at 3 x.
Proof. unfold is_u32, byte_at; intros Hx. bitwise_eq. Qed.

Lemma u32_small (x : Z) : is_u32 x -> u32 x = x.
Proof. unfold is_u32, u32; intros. apply Z.mod_small. lia. Qed.

Lemma u32_range (x : Z) : is_u32 (u32 x).
Proof. unfold is_u32, u32. apply Z.mod_pos_bound. lia. Qed.

Lemma byte_at_pack_k (k a r g b : Z) :
  is_byte a -> is_byte r -> is_byte g -> is_byte b -> 0 <= k < 4 ->
  byte_at k (pack a r g b) =
  if k =? 3 then a else if k =? 2 then r else if k =? 1 then g else b.
Proof.
  intros Ha Hr Hg Hb Hk. destruct (byte_at_pack a r g b) as (E3 & E2 & E1 & E0); auto.
  assert (k = 0 \/ k = 1 \/ k = 2 \/ k = 3) as [-> | [-> | [-> | ->]]] by lia; auto.
Qed.

(** *** Average2 works lane by lane *)

Lemma avg_hi_split (a b : Z) : is_u32 a -> is_u32 b ->
  Z.shiftr (Z.land (Z.lxor a b) 0xfefefefe) 1 =
  pack (avg_hi (byte_at 3 a) (byte_at 3 b)) (avg_hi (byte_at 2 a) (byte_at 2 b))
       (avg_hi (byte_at 1 a) (byte_at 1 b)) (avg_hi (byte_at 0 a) (byte_at 0 b)).
Proof. unfold is_u32, pack, avg_hi, byte_at; intros Ha Hb. bitwise_eq. Qed.

Lemma avg_lo_split (a b : Z) : is_u32 a -> is_u32 b ->
  Z.land a b =
  pack (avg_lo (byte_at 3 a) (byte_at 3 b)) (avg_lo (byte_at 2 a) (byte_at 2 b))
       (avg_lo (byte_at 1 a) (byte_at 1 b)) (avg_lo (byte_at 0 a) (byte_at 0 b)).
Proof. unfold is_u32, pack, avg_lo, byte_at; intros Ha Hb. bitwise_eq. Qed.

Lemma avg_lane (x y : Z) : is_byte x -> is_byte y -> avg_lane_ok x y = true.
Proof.
  intros Hx Hy.
  assert (H : all_bytes (fun x => all_bytes (fun y => avg_lane_ok x y)) = true)
    by (vm_compute; reflexivity).
  exact (all_bytes_spec _ (all_bytes_spec _ H x Hx) y Hy).
Qed.

Lemma avg_lane_facts (x y : Z) : is_byte x -> is_byte y ->
  is_byte (avg_hi x y) /\ is_byte (avg_lo x y) /\ avg_hi x y + avg_lo x y = (x + y) / 2.
Proof.
  intros Hx Hy. pose proof (avg_lane x y Hx Hy) as H. unfold avg_lane_ok in H.
  rewrite !andb_true_iff, !Z.leb_le, !Z.ltb_lt, Z.eqb_eq in H.
  unfold is_byte. change (2 ^ 8) with 256. lia.
Qed.

Lemma lane_avg_byte (k a b : Z) : is_byte (lane_avg k a b).
Proof.
  unfold lane_avg. pose proof (byte_at_byte k a). pose proof (byte_at_byte k b).
  unfold is_byte in *. change (2 ^ 8) with 256 in *.
  split; [apply Z.div_pos | apply Z.div_lt_upper_bound]; lia.
Qed.

Lemma Average2_sum (a b : Z) : is_u32 a -> is_u32 b ->
  Z.shiftr (Z.land (Z.lxor a b) 0xfefefefe) 1 + Z.land a b =
  pack (lane_avg 3 a b) (lane_avg 2 a b) (lane_avg 1 a b) (lane_avg 0 a b).
Proof.
  intros Ha Hb. rewrite avg_hi_split, avg_lo_split by assumption.
  pose proof (byte_at_byte 3 a). pose proof (byte_at_byte 2 a).
  pose proof (byte_at_byte 1 a). pose proof (byte_at_byte 0 a).
  pose proof (byte_at_byte 3 b). pose proof (byte_at_byte 2 b).
  pose proof (byte_at_byte 1 b). pose proof (byte_at_byte 0 b).
  destruct (avg_lane_facts (byte_at 3 a) (byte_at 3 b)) as (H3h & H3l & E3); auto.
  destruct (avg_lane_facts (byte_at 2 a) (byte_at 2 b)) as (H2h & H2l & E2); auto.
  destruct (avg_lane_facts (byte_at 1 a) (byte_at 1 b)) as (H1h & H1l & E1); auto.
  destruct (avg_lane_facts (byte_at 0 a) (byte_at 0 b)) as (H0h & H0l & E0); auto.
  rewrite !pack_arith; auto using lane_avg_byte.
  unfold lane_avg. rewrite <- E3, <- E2, <- E1, <- E0. ring.
Qed.

Lemma Average2_lanes (a b : Z) : is_u32 a -> is_u32 b ->
  Average2 a b = pack (lane_avg 3 a b) (lane_avg 2 a b) (lane_avg 1 a b) (lane_avg 0 a b).
Proof.
  intros Ha Hb. unfold Average2. rewrite Average2_sum by assumption.
  apply u32_small, pack_u32; apply lane_avg_byte.
Qed.

(** *** Clip255 *)

Lemma Clip255_byte (x : Z) : is_u32 x -> is_byte (Clip255 x).
Proof.
  unfold is_u32, is_byte, Clip255; intros Hx. change (2 ^ 8) with 256.
  destruct (Z.ltb_spec x 256); [lia |].
  rewrite Z.shiftr_div_pow2 by lia.
  pose proof (u32_range (Z.lnot x)) as Hr. unfold is_u32 in Hr.
  split; [apply Z.div_pos | apply Z.div_lt_upper_bound]; lia.
Qed.

Lemma AddSubtractComponentFull_byte (a b c : Z) : is_byte (AddSubtractComponentFull a b c).
Proof. apply Clip255_byte, u32_range. Qed.

Lemma AddSubtractComponentHalf_byte (a b : Z) : is_byte (AddSubtractComponentHalf a b).
Proof. apply Clip255_byte, u32_range. Qed.

Create HintDb lanes.

#[local] Hint Resolve byte_at_byte AddSubtractComponentFull_byte
  AddSubtractComponentHalf_byte lane_avg_byte u32_range : lanes.

Lemma clip_full_range (v : Z) : -255 <= v <= 510 -> Clip255 (u32 v) = clamp255 v.
Proof.
  intros Hv.
  assert (H : all_in_range (-255) 766 clip_ok = true) by (vm_compute; reflexivity).
  apply Z.eqb_eq, (all_in_range_spec _ _ _ H). lia.
Qed.

Lemma clip_half (x y : Z) : is_byte x -> is_byte y ->
  Clip255 (u32 (x + Z.quot (x - y) 2)) = clamp255 (x + Z.quot (x - y) 2).
Proof.
  intros Hx Hy.
  assert (H : all_bytes (fun x => all_bytes (fun y => clip_ok (x + Z.quot (x - y) 2))) = true)
    by (vm_compute; reflexivity).
  apply Z.eqb_eq. exact (all_bytes_spec _ (all_bytes_spec _ H x Hx) y Hy).
Qed.

(** Rewrites [byte_at k (pack a r g b)] for a concrete lane [k]. *)
Ltac lane_of_pack :=
  match goal with
  | |- context [byte_at _ (pack ?a ?r ?g ?b)] =>
      let E3 := fresh "E" in let E2 := fresh "E" in
      let E1 := fresh "E" in let E0 := fresh "E" in
      destruct (byte_at_pack a r g b) as (E3 & E2 & E1 & E0); auto with lanes;
      rewrite ?E3, ?E2, ?E1, ?E0; clear E3 E2 E1 E0
  end.

Ltac lane_cases k :=
  let Hk := fresh in
  match goal with H : 0 <= k < 4 |- _ =>
    assert (Hk : k = 0 \/ k = 1 \/ k = 2 \/ k = 3) by lia;
    destruct Hk as [-> | [-> | [-> | ->]]]
  end.

(** ** Predictor claims *)

(** C6: [Average2] is the 32-bit formula [(((a ^ b) & 0xfefefefe) >> 1) + (a & b)]
    (the addition never wraps) and it computes the floor average of each of
    the four byte lanes; it maps [(0,0)] to [0], [(0xffffffff,0xffffffff)] to
    [0xffffffff] and [(0,0xffffffff)] to [0x7f7f7f7f]. *)
Theorem Average2_per_lane (a b : Z) (Ha : is_u32 a) (Hb : is_u32 b) :
  Average2 a b = Z.shiftr (Z.land (Z.lxor a b) 0xfefefefe) 1 + Z.land a b /\
  (forall k, 0 <= k < 4 -> byte_at k (Average2 a b) = (byte_at k a + byte_at k b) / 2) /\
  Average2 0 0 = 0 /\ Average2 0xffffffff 0xffffffff = 0xffffffff /\
  Average2 0 0xffffffff = 0x7f7f7f7f.
Proof.
  split; [| split; [| repeat split; reflexivity]].
  - unfold Average2. apply u32_small. rewrite Average2_sum by assumption.
    apply pack_u32; auto with lanes.
  - intros k Hk. rewrite Average2_lanes by assumption.
    lane_cases k; lane_of_pack; reflexivity.
Qed.

Lemma Average2_per_lane_witness :
  (is_u32 0x12345678 /\ is_u32 0x9abcdef0) /\
  byte_at 2 (Average2 0x12345678 0x9abcdef0) = (0x34 + 0xbc) / 2.
Proof.
  split; [unfold is_u32; split; lia |].
  refine (proj1 (proj2 (Average2_per_lane 0x12345678 0x9abcdef0 _ _)) 2 _);
    unfold is_u32; lia.
Defined.

(** C7: [Clip255 x] is [x] when [x < 256] and [(~x) >> 24] otherwise, and lies
    in [0, 255] for every 32-bit [x]; predictor 12 computes on each lane
    [Clip255 (uint32)(left + top - topleft)] and predictor 13 computes on each
    lane [Clip255 (uint32)(a + (a - b) / 2)], [a] the lane of [avg2(left, top)]
    and [b] the top-left lane (C division); both coincide with the
    saturation of the integer value to [0, 255], negative values included. *)
Theorem pred12_pred13_lanes (L TL T TR : Z)
  (HL : is_u32 L) (HT : is_u32 T) (HTL : is_u32 TL) :
  (forall x, Clip255 x = if x <? 256 then x else Z.shiftr (u32 (Z.lnot x)) 24) /\
  (forall x, is_u32 x -> 0 <= Clip255 x <= 255) /\
  exists v12 v13,
    c_predictor 12 (Some L) (top_row TL T TR) = Some v12 /\
    c_predictor 13 (Some L) (top_row TL T TR) = Some v13 /\
    forall k, 0 <= k < 4 ->
      let full := byte_at k L + byte_at k T - byte_at k TL in
      let a := byte_at k (Average2 L T) in
      let half := a + Z.quot (a - byte_at k TL) 2 in
      byte_at k v12 = Clip255 (u32 full) /\ byte_at k v12 = clamp255 full /\
      byte_at k v13 = Clip255 (u32 half) /\ byte_at k v13 = clamp255 half.
Proof.
  split; [reflexivity |]. split.
  { intros x Hx. pose proof (Clip255_byte x Hx) as H. unfold is_byte in H.
    change (2 ^ 8) with 256 in H. lia. }
  exists (ClampedAddSubtractFull L T TL), (ClampedAddSubtractHalf L T TL).
  split; [reflexivity |]. split; [reflexivity |].
  intros k Hk full a half.
  assert (Hfull : -255 <= full <= 510).
  { subst full. pose proof (byte_at_byte k L). pose proof (byte_at_byte k T).
    pose proof (byte_at_byte k TL). unfold is_byte in *.
    change (2 ^ 8) with 256 in *. lia. }
  assert (Hhalf : Clip255 (u32 half) = clamp255 half)
    by (subst half a; apply clip_half; auto with lanes).
  rewrite <- (clip_full_range full Hfull), <- Hhalf.
  assert (Hv12 : byte_at k (ClampedAddSubtractFull L T TL) = Clip255 (u32 full)).
  { subst full. unfold ClampedAddSubtractFull.
    rewrite (shiftr24 L), (shiftr24 T), (shiftr24 TL) by assumption.
    lane_cases k; lane_of_pack; reflexivity. }
  assert (Hv13 : byte_at k (ClampedAddSubtractHalf L T TL) = Clip255 (u32 half)).
  { subst half a. unfold ClampedAddSubtractHalf.
    rewrite (shiftr24 (Average2 L T)), (shiftr24 TL) by (apply u32_range || assumption).
    lane_cases k; lane_of_pack; reflexivity. }
  rewrite Hv12, Hv13. repeat split.
Qed.

Lemma pred12_pred13_lanes_witness :
  exists v12 v13,
    c_predictor 12 (Some 0x01020304) (top_row 0x05050505 0xff000000 0) = Some v12 /\
    c_predictor 13 (Some 0x01020304) (top_row 0x05050505 0xff000000 0) = Some v13 /\
    byte_at 3 v12 = clamp255 (1 + 255 - 5) /\ byte_at 2 v12 = clamp255 (2 + 0 - 5).
Proof.
  destruct (pred12_pred13_lanes 0x01020304 0x05050505 0xff000000 0)
    as (_ & _ & v12 & v13 & E12 & E13 & Hl); try (unfold is_u32; lia).
  exists v12, v13. split; [exact E12 | split; [exact E13 |]].
  split; [apply (Hl 3) | apply (Hl 2)]; lia.
Defined.

(** C5 (as stated): predictor 11 returns top exactly when the sum over the
    lanes of [|top - topleft| - |left - topleft|] is at most zero.  Refuted
    at left = 1, top = topleft = 0: the sum is -1 but the left pixel is
    returned. *)
Lemma pred11_stated_counterexample :
  ~ (forall L TL T TR,
       c_predictor 11 (Some L) (top_row TL T TR) =
       Some (if sum_lanes (fun k => Z.abs (byte_at k T - byte_at k TL)
                                    - Z.abs (byte_at k L - byte_at k TL)) <=? 0
             then T else L)).
Proof.
  intros H. specialize (H 1 0 0 0). vm_compute in H. discriminate H.
Qed.

(** C5 (amended): predictor 11 returns the top pixel exactly when the sum over
    the four lanes of [|left - topleft| - |top - topleft|] is at most zero,
    and the left pixel otherwise. *)
Theorem pred11_select (L TL T TR : Z)
  (HL : is_u32 L) (HT : is_u32 T) (HTL : is_u32 TL) :
  c_predictor 11 (Some L) (top_row TL T TR) =
  Some (if sum_lanes (fun k => Z.abs (byte_at k L - byte_at k TL)
                               - Z.abs (byte_at k T - byte_at k TL)) <=? 0
        then T else L).
Proof.
  change (c_predictor 11 (Some L) (top_row TL T TR)) with (Some (Select T L TL)).
  unfold Select, Sub3, sum_lanes.
  rewrite (shiftr24 L), (shiftr24 T), (shiftr24 TL) by assumption.
  reflexivity.
Qed.

Lemma pred11_select_witness :
  (is_u32 1 /\ is_u32 0 /\ is_u32 0) /\
  c_predictor 11 (Some 1) (top_row 0 0 0) =
  Some (if sum_lanes (fun k => Z.abs (byte_at k 1 - byte_at k 0)
                               - Z.abs (byte_at k 0 - byte_at k 0)) <=? 0
        then 0 else 1).
Proof.
  split; [unfold is_u32; lia |].
  apply pred11_select; unfold is_u32; lia.
Defined.

(** C10: a mode outside [0, 13] yields the pixel 0 without reading any
    neighbour (even unreadable ones) and without error; a mode in [0, 13]
    runs entry [mode] of the 14-entry table [kPredictors]. *)
Theorem c_predictor_dispatch :
  (forall mode left top, mode < 0 \/ 13 < mode -> c_predictor mode left top = Some 0) /\
  length kPredictors = 14%nat /\
  (forall mode left top, 0 <= mode <= 13 ->
     exists f, nth_error kPredictors (Z.to_nat mode) = Some f /\
               c_predictor mode left top = f left top).
Proof.
  split; [| split; [reflexivity |]].
  - intros mode left top Hm. unfold c_predictor.
    destruct (Z.ltb_spec mode 0); destruct (Z.gtb_spec mode 13); simpl; auto; lia.
  - intros mode left top Hm. unfold c_predictor.
    destruct (Z.ltb_spec mode 0); [lia |]. destruct (Z.gtb_spec mode 13); [lia |].
    cbn [orb].
    assert (Hn : (Z.to_nat mode < length kPredictors)%nat) by (simpl; lia).
    destruct (nth_error kPredictors (Z.to_nat mode)) as [f |] eqn:E.
    + exists f. split; [reflexivity |].
      rewrite (nth_error_nth _ _ _ E). reflexivity.
    + apply nth_error_None in E. lia.
Qed.

Lemma c_predictor_dispatch_witness :
  c_predictor 14 None (fun _ => None) = Some 0 /\
  c_predictor (-1) None (fun _ => None) = Some 0 /\
  c_predictor 0 None (fun _ => None) = Some ARGB_BLACK.
Proof.
  destruct c_predictor_dispatch as (Hout & _ & Hin).
  split; [apply Hout; lia |]. split; [apply Hout; lia |].
  destruct (Hin 0 None (fun _ => None)) as (f & Ef & ->); [lia |].
  vm_compute in Ef. injection Ef as <-. reflexivity.
Defined.

(** ** Color transform lemmas *)

Lemma land255_byte (x : Z) : is_byte (Z.land x 255).
Proof. exact (byte_at_byte 0 x). Qed.

#[local] Hint Resolve land255_byte : lanes.

Lemma i8_land (x : Z) : i8 x = i8 (Z.land x 255).
Proof. unfold i8. rewrite land255, Zmod_mod. reflexivity. Qed.

Lemma i8_mod (x : Z) : i8 x mod 256 = x mod 256.
Proof.
  unfold i8. destruct (Z.ltb_spec (x mod 256) 128).
  - apply Zmod_mod.
  - rewrite Zminus_mod, Z_mod_same_full, Z.sub_0_r, !Zmod_mod. reflexivity.
Qed.

Lemma byte_at_arith (k x : Z) : 0 <= k -> byte_at k x = (x / 2 ^ (8 * k)) mod 256.
Proof. intros Hk. unfold byte_at. rewrite land255, Z.shiftr_div_pow2 by lia. reflexivity. Qed.

Lemma mix_red_blue (p x y : Z) : is_u32 p -> is_byte x -> is_byte y ->
  Z.lor (Z.lor (Z.land p 0xff00ff00) (Z.shiftl x 16)) y =
  pack (byte_at 3 p) x (byte_at 1 p) y.
Proof. unfold is_u32, is_byte, pack, byte_at; intros Hp Hx Hy. bitwise_eq. Qed.

Lemma mask_red_blue (s : Z) : 0 <= s ->
  Z.land s 0x00ff00ff = pack 0 (byte_at 2 s) 0 (byte_at 0 s).
Proof.
  unfold pack, byte_at; intros Hs.
  apply Z.bits_inj'; intros i Hi. bits_rewrite.
  destruct (Z.lt_ge_cases i 32) as [Hlt | Hge].
  - set (bs := Z.testbit s) in *. clearbody bs.
    enum_index i; [ .. | lia ]; cbv -[andb orb xorb negb]; try btauto.
  - kill_const_high. btauto.
Qed.

Lemma or_green (g : Z) : is_byte g -> Z.lor (Z.shiftl g 16) g = pack 0 g 0 g.
Proof. unfold is_byte, pack; intros Hg. bitwise_eq. Qed.

Lemma merge_red_blue (q x y : Z) : is_u32 q -> is_byte x -> is_byte y ->
  Z.lor (Z.land q 0xff00ff00) (pack 0 x 0 y) = pack (byte_at 3 q) x (byte_at 1 q) y.
Proof. unfold is_u32, is_byte, pack, byte_at; intros Hq Hx Hy. bitwise_eq. Qed.

Lemma mod256_byte (x : Z) : is_byte (x mod 256).
Proof. unfold is_byte. change (2 ^ 8) with 256. apply Z.mod_pos_bound. lia. Qed.

#[local] Hint Resolve mod256_byte : lanes.

Lemma i8_sub_mod (x d : Z) : (i8 x mod 256 - d) mod 256 = (x - d) mod 256.
Proof. rewrite i8_mod, Zminus_mod_idemp_l. reflexivity. Qed.

Lemma transform_color_px_spec (m : CMultipliers) (p : Z) : is_u32 p ->
  transform_color_px m p =
  pack (byte_at 3 p)
       ((byte_at 2 p - ColorTransformDelta (i8 (green_to_red m)) (i8 (byte_at 1 p))) mod 256)
       (byte_at 1 p)
       ((byte_at 0 p - ColorTransformDelta (i8 (green_to_blue m)) (i8 (byte_at 1 p))
                     - ColorTransformDelta (i8 (red_to_blue m)) (i8 (byte_at 2 p))) mod 256).
Proof.
  intros Hp. unfold transform_color_px. cbv zeta.
  rewrite (i8_land (Z.shiftr p 8)), (i8_land (Z.shiftr p 16)).
  rewrite mix_red_blue by auto with lanes.
  change (Z.land (Z.shiftr p 8) 255) with (byte_at 1 p).
  change (Z.land (Z.shiftr p 16) 255) with (byte_at 2 p).
  change (Z.land p 255) with (byte_at 0 p).
  rewrite !land255, i8_sub_mod. reflexivity.
Qed.

Lemma transform_color_inverse_px_spec (m : CMultipliers) (q : Z) : is_u32 q ->
  let r := (byte_at 2 q + ColorTransformDelta (i8 (green_to_red m)) (i8 (byte_at 1 q))) mod 256 in
  transform_color_inverse_px m q =
  pack (byte_at 3 q) r (byte_at 1 q)
       ((byte_at 0 q + ColorTransformDelta (i8 (green_to_blue m)) (i8 (byte_at 1 q))
                     + ColorTransformDelta (i8 (red_to_blue m)) (i8 r)) mod 256).
Proof.
  intros Hq r. subst r. unfold transform_color_inverse_px. cbv zeta.
  rewrite (i8_land (Z.shiftr q 8)).
  rewrite mix_red_blue by auto with lanes.
  change (Z.land (Z.shiftr q 8) 255) with (byte_at 1 q).
  change (Z.land (Z.shiftr q 16) 255) with (byte_at 2 q).
  change (Z.land q 255) with (byte_at 0 q).
  rewrite !land255. reflexivity.
Qed.

(** ** Color transform claims *)

(** C9: the forward and the inverse color transform keep the alpha lane
    (bits 31-24) and the green lane (bits 15-8) of a pixel; they change only
    the red and blue lanes, each by mod-256 arithmetic. *)
Theorem transform_color_frame (m : CMultipliers) (p : Z) (Hp : is_u32 p) :
  let g := byte_at 1 p in
  let q := transform_color_px m p in
  let q' := transform_color_inverse_px m p in
  let r' := (byte_at 2 p + ColorTransformDelta (i8 (green_to_red m)) (i8 g)) mod 256 in
  is_u32 q /\ byte_at 3 q = byte_at 3 p /\ byte_at 1 q = g /\
  byte_at 2 q = (byte_at 2 p - ColorTransformDelta (i8 (green_to_red m)) (i8 g)) mod 256 /\
  byte_at 0 q = (byte_at 0 p - ColorTransformDelta (i8 (green_to_blue m)) (i8 g)
                             - ColorTransformDelta (i8 (red_to_blue m)) (i8 (byte_at 2 p))) mod 256 /\
  is_u32 q' /\ byte_at 3 q' = byte_at 3 p /\ byte_at 1 q' = g /\
  byte_at 2 q' = r' /\
  byte_at 0 q' = (byte_at 0 p + ColorTransformDelta (i8 (green_to_blue m)) (i8 g)
                              + ColorTransformDelta (i8 (red_to_blue m)) (i8 r')) mod 256.
Proof.
  intros g q q' r'. subst q q'.
  rewrite (transform_color_px_spec m p Hp), (transform_color_inverse_px_spec m p Hp).
  repeat split; try (apply pack_u32; auto with lanes); lane_of_pack; reflexivity.
Qed.

Lemma transform_color_frame_witness :
  is_u32 0xdeadbeef /\
  byte_at 3 (transform_color_px {| green_to_red := 0x80; green_to_blue := 0x7f;
                                   red_to_blue := 0xd3 |} 0xdeadbeef) = 0xde.
Proof.
  assert (H : is_u32 0xdeadbeef) by (unfold is_u32; lia).
  split; [exact H |].
  exact (proj1 (proj2 (transform_color_frame
    {| green_to_red := 0x80; green_to_blue := 0x7f; red_to_blue := 0xd3 |} 0xdeadbeef H))).
Defined.

Lemma transform_color_roundtrip_px (m : CMultipliers) (p : Z) : is_u32 p ->
  transform_color_inverse_px m (transform_color_px m p) = p.
Proof.
  intros Hp. rewrite (transform_color_px_spec m p Hp).
  rewrite transform_color_inverse_px_spec by (apply pack_u32; auto with lanes).
  lane_of_pack.
  set (g := byte_at 1 p). set (r := byte_at 2 p). set (b := byte_at 0 p).
  set (D1 := ColorTransformDelta (i8 (green_to_red m)) (i8 g)).
  set (D2 := ColorTransformDelta (i8 (green_to_blue m)) (i8 g)).
  set (D3 := ColorTransformDelta (i8 (red_to_blue m)) (i8 r)).
  assert (Er : ((r - D1) mod 256 + D1) mod 256 = r).
  { rewrite Zplus_mod_idemp_l. replace (r - D1 + D1) with r by ring.
    apply Z.mod_small. pose proof (byte_at_byte 2 p). unfold is_byte in *. lia. }
  rewrite Er. fold D3.
  assert (Eb : ((b - D2 - D3) mod 256 + D2 + D3) mod 256 = b).
  { rewrite <- Z.add_assoc, Zplus_mod_idemp_l.
    replace (b - D2 - D3 + (D2 + D3)) with b by ring.
    apply Z.mod_small. pose proof (byte_at_byte 0 p). unfold is_byte in *. lia. }
  rewrite Eb. symmetry. apply pack_bytes; exact Hp.
Qed.

(** C1: for every multiplier tuple and every array of 32-bit pixels, the
    inverse color transform applied to the forward transform gives back the
    original pixels exactly. *)
Theorem transform_color_roundtrip (m : CMultipliers) (data : list Z)
  (Hdata : Forall is_u32 data) :
  c_transform_color_inverse m (c_transform_color m data) = data.
Proof.
  unfold c_transform_color_inverse, c_transform_color. rewrite map_map.
  induction Hdata as [| p data Hp _ IH]; [reflexivity |].
  cbn [map]. rewrite transform_color_roundtrip_px, IH by exact Hp. reflexivity.
Qed.

Lemma transform_color_roundtrip_witness :
  Forall is_u32 [0xdeadbeef; 0; 0xffffffff] /\
  c_transform_color_inverse {| green_to_red := 0x80; green_to_blue := 0x7f; red_to_blue := 0xd3 |}
    (c_transform_color {| green_to_red := 0x80; green_to_blue := 0x7f; red_to_blue := 0xd3 |}
       [0xdeadbeef; 0; 0xffffffff]) = [0xdeadbeef; 0; 0xffffffff].
Proof.
  assert (H : Forall is_u32 [0xdeadbeef; 0; 0xffffffff])
    by (repeat constructor; unfold is_u32; lia).
  split; [exact H | apply transform_color_roundtrip; exact H].
Defined.

(** ** Green subtraction *)

Lemma i32_bits (p : Z) : is_u32 p -> forall j, 0 <= j < 32 -> Z.testbit (i32 p) j = Z.testbit p j.
Proof.
  unfold is_u32, i32; intros Hp j Hj. rewrite (Z.mod_small p) by lia.
  destruct (Z.ltb_spec p (2 ^ 31)); [reflexivity |].
  rewrite <- (Z.mod_pow2_bits_low (p - 2 ^ 32) 32 j) by lia.
  replace ((p - 2 ^ 32) mod 2 ^ 32) with p; [reflexivity |].
  rewrite Zminus_mod, Z_mod_same_full, Z.sub_0_r, !Zmod_mod, Z.mod_small; lia.
Qed.

Lemma byte_at_low_bits (k x y : Z) : 0 <= k <= 3 ->
  (forall j, 0 <= j < 32 -> Z.testbit x j = Z.testbit y j) -> byte_at k x = byte_at k y.
Proof.
  intros Hk H. unfold byte_at. apply Z.bits_inj'; intros j Hj.
  rewrite !Z.land_spec, !Z.shiftr_spec by lia.
  destruct (Z.lt_ge_cases j 8).
  - rewrite H by lia. reflexivity.
  - rewrite (testbit_high 255 8 j) by lia. rewrite !andb_false_r. reflexivity.
Qed.

Lemma byte_at_i32 (k p : Z) : 0 <= k <= 3 -> is_u32 p -> byte_at k (i32 p) = byte_at k p.
Proof. intros Hk Hp. apply byte_at_low_bits; [exact Hk |]. apply i32_bits, Hp. Qed.

Lemma u32_i32 (p : Z) : is_u32 p -> u32 (i32 p) = p.
Proof.
  unfold is_u32, u32, i32; intros Hp. rewrite (Z.mod_small p) by lia.
  destruct (Z.ltb_spec p (2 ^ 31)).
  - apply Z.mod_small. lia.
  - rewrite Zminus_mod, Z_mod_same_full, Z.sub_0_r, !Zmod_mod, Z.mod_small; lia.
Qed.

Lemma subtract_green_px_spec (p : Z) : is_u32 p ->
  subtract_green_px p =
  pack (byte_at 3 p) ((byte_at 2 p - byte_at 1 p) mod 256) (byte_at 1 p)
       ((byte_at 0 p - byte_at 1 p) mod 256).
Proof.
  intros Hp. unfold subtract_green_px. cbv zeta. rewrite u32_i32 by exact Hp.
  change (Z.land (Z.shiftr (i32 p) 8) 255) with (byte_at 1 (i32 p)).
  change (Z.land (Z.shiftr (i32 p) 16) 255) with (byte_at 2 (i32 p)).
  change (Z.land (Z.shiftr (i32 p) 0) 255) with (byte_at 0 (i32 p)).
  rewrite !byte_at_i32 by (exact Hp || lia).
  rewrite mix_red_blue by auto with lanes.
  rewrite !land255. reflexivity.
Qed.

Lemma add_green_px_spec (q : Z) : is_u32 q ->
  add_green_px q =
  pack (byte_at 3 q) ((byte_at 2 q + byte_at 1 q) mod 256) (byte_at 1 q)
       ((byte_at 0 q + byte_at 1 q) mod 256).
Proof.
  intros Hq. unfold add_green_px. cbv zeta.
  change (Z.land (Z.shiftr q 8) 255) with (byte_at 1 q).
  set (x := byte_at 2 q). set (g := byte_at 1 q). set (y := byte_at 0 q).
  assert (Hx : is_byte x) by apply byte_at_byte.
  assert (Hg : is_byte g) by apply byte_at_byte.
  assert (Hy : is_byte y) by apply byte_at_byte.
  rewrite (mask_red_blue q) by (unfold is_u32 in Hq; lia). fold x y.
  rewrite or_green by exact Hg.
  rewrite (pack_arith 0 x 0 y), (pack_arith 0 g 0 g) by (auto; unfold is_byte; lia).
  unfold is_byte in Hx, Hg, Hy. change (2 ^ 8) with 256 in Hx, Hg, Hy.
  set (S := 0 * 2 ^ 24 + x * 2 ^ 16 + 0 * 2 ^ 8 + y + (0 * 2 ^ 24 + g * 2 ^ 16 + 0 * 2 ^ 8 + g)).
  assert (ES : S = (x + g) * 2 ^ 16 + (y + g)) by (subst S; ring).
  rewrite u32_small by (unfold is_u32; rewrite ES; lia).
  rewrite mask_red_blue by (rewrite ES; lia).
  rewrite merge_red_blue by (auto with lanes).
  rewrite (byte_at_arith 2 S), (byte_at_arith 0 S) by lia.
  change (2 ^ (8 * 2)) with (2 ^ 16). change (2 ^ (8 * 0)) with 1. rewrite Z.div_1_r.
  replace (S / 2 ^ 16) with (x + g).
  2: { apply (Z.div_unique_pos S (2 ^ 16) (x + g) (y + g)); [lia | rewrite ES; ring]. }
  replace (S mod 256) with ((y + g) mod 256); [reflexivity |].
  rewrite ES. replace ((x + g) * 2 ^ 16 + (y + g)) with ((y + g) + ((x + g) * 256) * 256) by ring.
  rewrite Z_mod_plus_full. reflexivity.
Qed.

Lemma add_green_subtract_green_px (p : Z) : is_u32 p -> add_green_px (subtract_green_px p) = p.
Proof.
  intros Hp. rewrite subtract_green_px_spec by exact Hp.
  rewrite add_green_px_spec by (apply pack_u32; auto with lanes).
  lane_of_pack.
  pose proof (byte_at_byte 2 p) as Hr. pose proof (byte_at_byte 0 p) as Hb.
  unfold is_byte in Hr, Hb. change (2 ^ 8) with 256 in Hr, Hb.
  rewrite !Zplus_mod_idemp_l, !Z.sub_add, !Z.mod_small by lia.
  symmetry. apply pack_bytes, Hp.
Qed.

(** C4: subtracting green from red and blue (mod 256) and adding it back
    gives back every 32-bit pixel; [subtract_green] keeps alpha and green,
    maps red to [red - green] and blue to [blue - green] (mod 256), and
    [add_green] keeps alpha and green; the same holds for whole arrays. *)
Theorem add_green_subtract_green (p : Z) (Hp : is_u32 p) :
  add_green_px (subtract_green_px p) = p /\
  byte_at 3 (subtract_green_px p) = byte_at 3 p /\
  byte_at 1 (subtract_green_px p) = byte_at 1 p /\
  byte_at 2 (subtract_green_px p) = (byte_at 2 p - byte_at 1 p) mod 256 /\
  byte_at 0 (subtract_green_px p) = (byte_at 0 p - byte_at 1 p) mod 256 /\
  (forall q, is_u32 q ->
     byte_at 3 (add_green_px q) = byte_at 3 q /\ byte_at 1 (add_green_px q) = byte_at 1 q) /\
  (forall data, Forall is_u32 data -> c_add_green (c_subtract_green data) = data).
Proof.
  split; [apply add_green_subtract_green_px, Hp |].
  rewrite subtract_green_px_spec by exact Hp.
  split; [lane_of_pack; reflexivity |]. split; [lane_of_pack; reflexivity |].
  split; [lane_of_pack; reflexivity |]. split; [lane_of_pack; reflexivity |].
  split.
  - intros q Hq. rewrite add_green_px_spec by exact Hq.
    split; lane_of_pack; reflexivity.
  - intros data Hdata. unfold c_add_green, c_subtract_green. rewrite map_map.
    induction Hdata as [| x data Hx _ IH]; [reflexivity |].
    cbn [map]. rewrite add_green_subtract_green_px, IH by exact Hx. reflexivity.
Qed.

Lemma add_green_subtract_green_witness :
  is_u32 0xdeadbeef /\ add_green_px (subtract_green_px 0xdeadbeef) = 0xdeadbeef.
Proof.
  assert (H : is_u32 0xdeadbeef) by (unfold is_u32; lia).
  split; [exact H | exact (proj1 (add_green_subtract_green 0xdeadbeef H))].
Defined.

(** ** Bit packer lemmas *)

Lemma lor_shiftl_add (a b k : Z) : 0 <= k -> 0 <= a < 2 ^ k ->
  Z.lor a (Z.shiftl b k) = a + b * 2 ^ k.
Proof.
  intros Hk Ha. rewrite lor_add.
  - rewrite Z.shiftl_mul_pow2 by exact Hk. reflexivity.
  - apply Z.bits_inj'; intros j Hj. rewrite Z.land_spec, Z.bits_0.
    destruct (Z.lt_ge_cases j k).
    + rewrite Z.shiftl_spec_low by lia. apply andb_false_r.
    + rewrite (testbit_high a k j) by lia. reflexivity.
Qed.

Lemma mask_ones (v n : Z) : 0 <= n -> Z.land v (Z.shiftl 1 n - 1) = v mod 2 ^ n.
Proof.
  intros Hn. replace (Z.shiftl 1 n - 1) with (Z.ones n) by (unfold Z.ones; lia).
  apply Z.land_ones, Hn.
Qed.

Lemma le_int_app (l : list Z) (b : Z) :
  le_int (l ++ [b]) = le_int l + b * 2 ^ (8 * Z.of_nat (length l)).
Proof.
  induction l as [| x l IH]; cbn [app le_int fold_right length].
  - simpl. ring.
  - fold (le_int (l ++ [b])) (le_int l). rewrite IH, Nat2Z.inj_succ.
    replace (8 * Z.succ (Z.of_nat (length l))) with (8 * Z.of_nat (length l) + 8) by lia.
    rewrite Z.pow_add_r by lia. change (2 ^ 8) with 256. ring.
Qed.

Lemma le_int_nonneg (l : list Z) : Forall is_byte l -> 0 <= le_int l.
Proof.
  induction 1 as [| x l Hx _ IH]; cbn [le_int fold_right]; [lia |].
  fold (le_int l). unfold is_byte in Hx. lia.
Qed.


Lemma lw_flush_inv (f : nat) (X : Z) (w : LBitWriter) :
  lw_inv X w -> lw_used w < 8 * (Z.of_nat f + 1) ->
  lw_inv X (lw_flush f w) /\ lw_pos (lw_flush f w) = lw_pos w /\ lw_used (lw_flush f w) < 8.
Proof.
  revert w. induction f as [| f IH]; intros w Hinv Hf; cbn [lw_flush].
  - split; [exact Hinv | split; [reflexivity | lia]].
  - destruct (Z.leb_spec 8 (lw_used w)); [| split; [exact Hinv | split; [reflexivity | lia]]].
    destruct Hinv as (He & Hx & Hb & Hu & Hout).
    set (n := Z.of_nat (length (lw_out w))) in *.
    assert (Hsplit := Z.div_mod (lw_bits w) 256 ltac:(lia)).
    edestruct (IH {| lw_bits := Z.shiftr (lw_bits w) 8; lw_used := lw_used w - 8;
                     lw_out := lw_out w ++ [Z.land (lw_bits w) 255];
                     lw_error := lw_error w |}) as (Hinv' & Hpos & Hused).
    + unfold lw_inv; cbn [lw_bits lw_used lw_out lw_error].
      rewrite Z.shiftr_div_pow2, land255, le_int_app, length_app by lia. fold n.
      rewrite Nat2Z.inj_add. fold n.
      replace (n + Z.of_nat (length [lw_bits w mod 256])) with (n + 1) by reflexivity.
      change (2 ^ 8) with 256.
      assert (Hp : 2 ^ (8 * (n + 1)) = 256 * 2 ^ (8 * n))
        by (replace (8 * (n + 1)) with (8 * n + 8) by lia;
            rewrite Z.pow_add_r by lia; change (2 ^ 8) with 256; ring).
      assert (Hq : 2 ^ lw_used w = 2 ^ (lw_used w - 8) * 256)
        by (change 256 with (2 ^ 8); rewrite <- Z.pow_add_r by lia; f_equal; lia).
      rewrite Hp. split; [exact He |]. split; [rewrite <- Hx; lia |].
      split; [| split; [lia |]].
      * split; [apply Z.div_pos; lia |]. apply Z.div_lt_upper_bound; lia.
      * apply Forall_app. split; [exact Hout |]. constructor; [| constructor].
        apply mod256_byte.
    + cbn [lw_used]. lia.
    + split; [exact Hinv' |]. split; [| exact Hused]. rewrite Hpos.
      unfold lw_pos; cbn [lw_out lw_used]. rewrite length_app, Nat2Z.inj_add.
      cbn [length]. change (Z.of_nat 1) with 1. lia.
Qed.

Lemma lw_pos_nonneg (X : Z) (w : LBitWriter) : lw_inv X w -> 0 <= lw_pos w.
Proof. intros (_ & _ & _ & Hu & _). unfold lw_pos. lia. Qed.

Lemma lw_put_inv (X v n : Z) (w : LBitWriter) :
  lw_inv X w -> lw_used w < 8 -> pair_ok (v, n) ->
  lw_inv (X + v * 2 ^ lw_pos w) (VP8LPutBits w v n) /\
  lw_pos (VP8LPutBits w v n) = lw_pos w + n /\ lw_used (VP8LPutBits w v n) < 8.
Proof.
  intros Hinv Hu8 (Hn & Hv); cbn [fst snd] in Hn, Hv.
  pose proof Hinv as (He & Hx & Hb & Hu & Hout).
  unfold VP8LPutBits. rewrite He.
  replace ((n <? 0) || (24 <? n)) with false
    by (symmetry; apply orb_false_iff; split; apply Z.ltb_ge; lia).
  rewrite mask_ones, (Z.mod_small v) by lia.
  rewrite lor_shiftl_add by lia.
  set (w' := {| lw_bits := lw_bits w + v * 2 ^ lw_used w; lw_used := lw_used w + n;
                lw_out := lw_out w; lw_error := false |}).
  assert (Hw' : lw_inv (X + v * 2 ^ lw_pos w) w').
  { unfold lw_inv, lw_pos; cbn [lw_bits lw_used lw_out lw_error w'].
    set (m := Z.of_nat (length (lw_out w))) in *.
    assert (H2u : 0 < 2 ^ lw_used w) by (apply Z.pow_pos_nonneg; lia).
    assert (H2n : 0 < 2 ^ n) by (apply Z.pow_pos_nonneg; lia).
    rewrite (Z.pow_add_r 2 (8 * m) (lw_used w)), (Z.pow_add_r 2 (lw_used w) n) by lia.
    split; [reflexivity |]. split; [rewrite <- Hx; ring |].
    split; [| split; [lia | exact Hout]]. nia. }
  destruct (lw_flush_inv (Z.to_nat (lw_used w')) _ w' Hw') as (Hi & Hp & Hu');
    [cbn [lw_used w']; lia |].
  split; [exact Hi |]. split; [| exact Hu'].
  rewrite Hp. unfold lw_pos; cbn [lw_out lw_used w']. lia.
Qed.

Lemma lw_run_inv (pairs : list (Z * Z)) (X : Z) (w : LBitWriter) :
  Forall pair_ok pairs -> lw_inv X w -> lw_used w < 8 ->
  let w'' := fold_left (fun w vn => VP8LPutBits w (fst vn) (snd vn)) pairs w in
  lw_inv (X + 2 ^ lw_pos w * packed_value pairs) w'' /\ lw_used w'' < 8.
Proof.
  revert X w. induction pairs as [| [v n] pairs IH]; intros X w Hok Hinv Hu; cbn zeta.
  - cbn [fold_left packed_value fold_right]. rewrite Z.mul_0_r, Z.add_0_r. auto.
  - inversion Hok as [| ? ? Hvn Hrest]; subst.
    cbn [fold_left fst snd].
    destruct (lw_put_inv X v n w Hinv Hu Hvn) as (Hi & Hp & Hu').
    destruct (IH _ _ Hrest Hi Hu') as (Hi' & Hu'').
    split; [| exact Hu''].
    replace (X + 2 ^ lw_pos w * packed_value ((v, n) :: pairs))
      with (X + v * 2 ^ lw_pos w +
            2 ^ lw_pos (VP8LPutBits w v n) * packed_value pairs); [exact Hi' |].
    rewrite Hp. cbn [packed_value fold_right fst snd]. fold (packed_value pairs).
    destruct Hvn as (Hn & _). cbn [snd] in Hn.
    pose proof (lw_pos_nonneg X w Hinv).
    rewrite Z.pow_add_r by lia. ring.
Qed.

Lemma lw_finish_inv (X : Z) (w : LBitWriter) :
  lw_inv X w -> lw_used w < 8 ->
  exists bytes, VP8LBitWriterFinish w = Some bytes /\ le_int bytes = X /\
                Forall is_byte bytes.
Proof.
  intros (He & Hx & Hb & Hu & Hout) Hu8. unfold VP8LBitWriterFinish. rewrite He.
  eexists; split; [reflexivity |].
  destruct (Z.ltb_spec 0 (lw_used w)).
  - assert (H2 : 2 ^ lw_used w <= 2 ^ 8) by (apply Z.pow_le_mono_r; lia).
    rewrite land255, Z.mod_small by (change (2 ^ 8) with 256 in H2; lia).
    rewrite le_int_app. split; [exact Hx |].
    apply Forall_app. split; [exact Hout |]. constructor; [| constructor].
    unfold is_byte. lia.
  - replace (lw_used w) with 0 in Hb by lia. cbn in Hb.
    replace (lw_bits w) with 0 in Hx by lia.
    rewrite app_nil_r. split; [lia | exact Hout].
Qed.


Lemma lr_refill_inv (f : nat) (nbits Y : Z) (r : LBitReader) :
  lr_inv Y r -> nbits <= lr_bits r + 8 * Z.of_nat f ->
  lr_inv Y (lr_refill f nbits r) /\ nbits <= lr_bits (lr_refill f nbits r).
Proof.
  revert r. induction f as [| f IH]; intros r Hinv Hf; cbn [lr_refill].
  - split; [exact Hinv | lia].
  - destruct (Z.ltb_spec (lr_bits r) nbits); [| split; [exact Hinv | lia]].
    destruct Hinv as (Hb & Hv & Hin & Hy).
    assert (H2 : 0 < 2 ^ lr_bits r) by (apply Z.pow_pos_nonneg; lia).
    assert (Hp8 : 2 ^ (lr_bits r + 8) = 2 ^ lr_bits r * 256)
      by (rewrite Z.pow_add_r by lia; reflexivity).
    destruct (lr_in r) as [| b rest] eqn:E; apply IH.
    + unfold lr_inv; cbn [lr_val lr_bits lr_in].
      rewrite Z.shiftl_0_l, Z.lor_0_r, Hp8. cbn [le_int fold_right] in *.
      repeat split; [lia | lia | nia | constructor | lia].
    + cbn [lr_bits]. lia.
    + apply Forall_cons_iff in Hin. destruct Hin as (Hbb & Hrest). unfold is_byte in Hbb.
      unfold lr_inv; cbn [lr_val lr_bits lr_in].
      rewrite lor_shiftl_add, Hp8 by lia.
      cbn [le_int fold_right] in Hy. fold (le_int rest) in Hy.
      repeat split; [lia | nia | nia | exact Hrest | rewrite <- Hy; ring].
    + cbn [lr_bits]. lia.
Qed.

Lemma lr_read_inv (Y n : Z) (r : LBitReader) :
  0 <= n <= 24 -> lr_inv Y r ->
  fst (VP8LReadBits r n) = Y mod 2 ^ n /\ lr_inv (Y / 2 ^ n) (snd (VP8LReadBits r n)).
Proof.
  intros Hn Hinv. unfold VP8LReadBits.
  replace ((n <? 0) || (24 <? n)) with false
    by (symmetry; apply orb_false_iff; split; apply Z.ltb_ge; lia).
  assert (Hb0 : 0 <= lr_bits r) by apply Hinv.
  destruct (lr_refill_inv (Z.to_nat n) n Y r Hinv ltac:(lia)) as (Hi & Hge).
  set (r1 := lr_refill (Z.to_nat n) n r) in *. cbn [fst snd].
  destruct Hi as (Hb & Hv & Hin & Hy).
  assert (H2n : 0 < 2 ^ n) by (apply Z.pow_pos_nonneg; lia).
  assert (Hsp : 2 ^ lr_bits r1 = 2 ^ (lr_bits r1 - n) * 2 ^ n)
    by (rewrite <- Z.pow_add_r by lia; f_equal; lia).
  assert (Hy' : Y = lr_val r1 + (le_int (lr_in r1) * 2 ^ (lr_bits r1 - n)) * 2 ^ n)
    by (rewrite <- Hy, Hsp; ring).
  rewrite mask_ones by lia. split.
  - rewrite Hy', Z.mod_add by lia. reflexivity.
  - unfold lr_inv; cbn [lr_val lr_bits lr_in].
    rewrite Z.shiftr_div_pow2 by lia.
    repeat split; [lia | apply Z.div_pos; lia | | exact Hin |].
    + apply Z.div_lt_upper_bound; [lia |]. rewrite Z.mul_comm, <- Hsp. lia.
    + rewrite Hy', Z.div_add by lia. reflexivity.
Qed.

Lemma lr_read_seq_inv (pairs : list (Z * Z)) (r : LBitReader) :
  Forall pair_ok pairs -> lr_inv (packed_value pairs) r ->
  lr_read_seq r (map snd pairs) = map fst pairs.
Proof.
  revert r. induction pairs as [| [v n] pairs IH]; intros r Hok Hinv; [reflexivity |].
  inversion Hok as [| ? ? Hvn Hrest]; subst. destruct Hvn as (Hn & Hv); cbn [fst snd] in *.
  cbn [map lr_read_seq fst snd].
  destruct (lr_read_inv _ n r Hn Hinv) as (Hval & Hi).
  destruct (VP8LReadBits r n) as [v' r'] eqn:E. cbn [fst snd] in Hval, Hi.
  cbn [packed_value fold_right fst snd] in Hval, Hi. fold (packed_value pairs) in Hval, Hi.
  assert (H2n : 0 < 2 ^ n) by (apply Z.pow_pos_nonneg; lia).
  rewrite (Z.mul_comm (2 ^ n)) in Hval, Hi.
  rewrite Z.mod_add, Z.mod_small in Hval by lia.
  rewrite Z.div_add, Z.div_small, Z.add_0_l in Hi by lia.
  subst v'. f_equal. apply IH; assumption.
Qed.

(** C3: for every sequence of (value, nbits) pairs with nbits in [0, 24] and
    each value below [2 ^ nbits], writing the pairs with the lossless bit
    packer and finishing yields a byte stream, and reading it back with the
    same nbits in the same order returns the original values in call order. *)
Theorem lossless_roundtrip (pairs : list (Z * Z)) :
  Forall pair_ok pairs ->
  exists bytes, c_lossless_write_sequence pairs = Some bytes /\
                c_lossless_read_sequence bytes (map snd pairs) = map fst pairs.
Proof.
  intros Hok. unfold c_lossless_write_sequence.
  assert (H0 : lw_inv 0 VP8LBitWriterInit)
    by (unfold lw_inv; cbn; repeat split; lia || constructor).
  destruct (lw_run_inv pairs 0 VP8LBitWriterInit Hok H0 ltac:(cbn; lia)) as (Hi & Hu).
  cbn zeta in Hi, Hu.
  change (lw_pos VP8LBitWriterInit) with 0 in Hi.
  rewrite Z.pow_0_r, Z.mul_1_l, Z.add_0_l in Hi.
  destruct (lw_finish_inv _ _ Hi Hu) as (bytes & Hf & Hle & Hbytes).
  exists bytes. split; [exact Hf |].
  apply lr_read_seq_inv; [exact Hok |].
  unfold lr_inv, VP8LInitBitReader; cbn [lr_val lr_bits lr_in].
  rewrite <- Hle. change (2 ^ 0) with 1.
  split; [lia |]. split; [lia |]. split; [exact Hbytes | ring].
Qed.

Lemma lossless_roundtrip_witness :
  Forall pair_ok [(5, 3); (3, 2); (4660, 13); (16777215, 24); (0, 0)] /\
  exists bytes,
    c_lossless_write_sequence [(5, 3); (3, 2); (4660, 13); (16777215, 24); (0, 0)]
      = Some bytes /\
    c_lossless_read_sequence bytes
      (map snd [(5, 3); (3, 2); (4660, 13); (16777215, 24); (0, 0)])
      = map fst [(5, 3); (3, 2); (4660, 13); (16777215, 24); (0, 0)].
Proof.
  assert (H : Forall pair_ok [(5, 3); (3, 2); (4660, 13); (16777215, 24); (0, 0)])
    by (repeat constructor; unfold pair_ok; cbn; lia).
  split; [exact H | apply (lossless_roundtrip _ H)].
Defined.

(** C8: writing 5 with nbits 3, then 3 with nbits 2, then finishing gives
    the single byte 0b00011101 (= 29); reading 3 bits then 2 bits from that
    byte returns 5 then 3. *)
Theorem lossless_concrete_scenario :
  c_lossless_write_sequence [(5, 3); (3, 2)] = Some [29] /\
  c_lossless_read_sequence [29] [3; 2] = [5; 3].
Proof. split; vm_compute; reflexivity. Qed.

(** ** Range coder lemmas *)

Lemma mod_mul_split (a b c : Z) : 0 < b -> 0 < c ->
  a mod (b * c) = a mod b + b * ((a / b) mod c).
Proof.
  intros Hb Hc. symmetry. apply (Z.mod_unique a (b * c) ((a / b) / c)).
  - left. pose proof (Z.mod_pos_bound a b Hb). pose proof (Z.mod_pos_bound (a / b) c Hc).
    split; [nia |]. nia.
  - rewrite (Z.div_mod a b) at 1 by lia. rewrite (Z.div_mod (a / b) c) at 1 by lia. ring.
Qed.

Lemma divmod_high (a d r : Z) : 0 < d -> 0 <= r < d ->
  (a * d + r) / d = a /\ (a * d + r) mod d = r.
Proof.
  intros Hd Hr. split.
  - rewrite Z.div_add_l by lia. rewrite Z.div_small by lia. ring.
  - rewrite Z.add_comm, Z.mod_add by lia. apply Z.mod_small. lia.
Qed.

Lemma pow2_pos (k : Z) : 0 <= k -> 0 < 2 ^ k.
Proof. intros. apply Z.pow_pos_nonneg; lia. Qed.

Lemma be_int_bound (l : list Z) : Forall is_byte l ->
  0 <= be_int l < 2 ^ (8 * Z.of_nat (length l)).
Proof.
  induction 1 as [| b l Hb _ IH]; cbn [be_int length]; [cbn; lia |].
  unfold is_byte in Hb. change (2 ^ 8) with 256 in Hb.
  rewrite Nat2Z.inj_succ.
  replace (8 * Z.succ (Z.of_nat (length l))) with (8 * Z.of_nat (length l) + 8) by lia.
  rewrite Z.pow_add_r by lia. change (2 ^ 8) with 256.
  pose proof (pow2_pos (8 * Z.of_nat (length l)) ltac:(lia)). nia.
Qed.

Lemma bs_int_bound (s : BitStream) : bs_inv s -> 0 <= bs_int s < 2 ^ bs_len s.
Proof.
  intros (Hl & Hin). unfold bs_int, bs_len.
  pose proof (be_int_bound _ Hin).
  set (n := 8 * Z.of_nat (length (bs_in s))) in *.
  assert (0 <= n) by (unfold n; lia).
  pose proof (Z.mod_pos_bound (bs_cur s) (2 ^ bs_left s) (pow2_pos (bs_left s) ltac:(lia))).
  pose proof (pow2_pos n ltac:(lia)).
  rewrite Z.pow_add_r by lia. nia.
Qed.

Lemma land1 (x : Z) : Z.land x 1 = x mod 2.
Proof. change 1 with (Z.ones 1). rewrite Z.land_ones by lia. reflexivity. Qed.

(** Taking the top bit of a [k]-bit chunk followed by [n] further bits. *)
Lemma take_bit (c k n R : Z) : 1 <= k -> 0 <= n -> 0 <= R < 2 ^ n ->
  (c mod 2 ^ k * 2 ^ n + R) / 2 ^ (k - 1 + n) = Z.land (Z.shiftr c (k - 1)) 1 /\
  (c mod 2 ^ k * 2 ^ n + R) mod 2 ^ (k - 1 + n) = c mod 2 ^ (k - 1) * 2 ^ n + R.
Proof.
  intros Hk Hn HR.
  set (m := 2 ^ (k - 1)).
  assert (Hm : 0 < m) by (apply pow2_pos; lia).
  assert (Hkm : 2 ^ k = m * 2)
    by (unfold m; rewrite Z.mul_comm, <- Z.pow_succ_r by lia; f_equal; lia).
  assert (Hp : 2 ^ (k - 1 + n) = m * 2 ^ n) by (unfold m; apply Z.pow_add_r; lia).
  pose proof (pow2_pos n Hn).
  rewrite Hkm, mod_mul_split, Hp by lia.
  rewrite Z.shiftr_div_pow2 by lia. fold m.
  rewrite land1.
  pose proof (Z.mod_pos_bound c m Hm).
  replace ((c mod m + m * (c / m mod 2)) * 2 ^ n + R)
    with ((c / m mod 2) * (m * 2 ^ n) + (c mod m * 2 ^ n + R)) by ring.
  apply divmod_high; nia.
Qed.

Lemma bs_next_spec (s : BitStream) : bs_inv s -> 1 <= bs_len s ->
  fst (bs_next s) = bs_int s / 2 ^ (bs_len s - 1) /\
  bs_int (snd (bs_next s)) = bs_int s mod 2 ^ (bs_len s - 1) /\
  bs_len (snd (bs_next s)) = bs_len s - 1 /\ bs_inv (snd (bs_next s)).
Proof.
  intros (Hl & Hin) H1. unfold bs_next, bs_int, bs_len in *.
  destruct (Z.eqb_spec (bs_left s) 0) as [H0 | H0].
  - destruct (bs_in s) as [| b rest] eqn:E; [cbn in H1; lia |].
    apply Forall_cons_iff in Hin. destruct Hin as (Hb & Hrest).
    cbn [fst snd bs_in bs_cur bs_left length be_int] in *.
    rewrite H0, Nat2Z.inj_succ in *. change (2 ^ 0) with 1. rewrite Z.mod_1_r, Z.mul_0_l, Z.add_0_l.
    replace (8 * Z.succ (Z.of_nat (length rest))) with (8 * Z.of_nat (length rest) + 8) by lia.
    replace (0 + (8 * Z.of_nat (length rest) + 8) - 1) with (8 - 1 + 8 * Z.of_nat (length rest))
      by lia.
    pose proof (be_int_bound _ Hrest).
    unfold is_byte in Hb.
    destruct (take_bit b 8 (8 * Z.of_nat (length rest)) (be_int rest)) as (Hd & Hmd);
      [lia | lia | exact H |].
    rewrite (Z.mod_small b (2 ^ 8) Hb) in Hd, Hmd.
    rewrite Hd, Hmd. split; [reflexivity |]. split; [reflexivity |].
    split; [reflexivity |]. split; [cbn [bs_left]; lia | exact Hrest].
  - cbn [fst snd bs_in bs_cur bs_left].
    pose proof (be_int_bound _ Hin).
    replace (bs_left s + 8 * Z.of_nat (length (bs_in s)) - 1)
      with (bs_left s - 1 + 8 * Z.of_nat (length (bs_in s))) by lia.
    destruct (take_bit (bs_cur s) (bs_left s) (8 * Z.of_nat (length (bs_in s)))
                (be_int (bs_in s))) as (Hd & Hmd); [lia | lia | exact H |].
    rewrite Hd, Hmd. split; [reflexivity |]. split; [reflexivity |].
    split; [reflexivity |]. split; [cbn [bs_left]; lia | exact Hin].
Qed.

(** One bit shifted from the stream into the value. *)
Lemma bs_shift (Z0 v : Z) (s : BitStream) : bs_inv s -> 1 <= bs_len s ->
  v * 2 ^ bs_len s + bs_int s = Z0 ->
  Z.lor (Z.shiftl v 1) (fst (bs_next s)) * 2 ^ bs_len (snd (bs_next s))
    + bs_int (snd (bs_next s)) = Z0 /\
  bs_len (snd (bs_next s)) = bs_len s - 1 /\ bs_inv (snd (bs_next s)).
Proof.
  intros Hinv H1 Hv.
  destruct (bs_next_spec s Hinv H1) as (Hb & Hi & Hl & Hinv').
  pose proof (bs_int_bound s Hinv) as Hbd.
  set (L := bs_len s) in *.
  assert (HL : 2 ^ L = 2 ^ (L - 1) * 2)
    by (rewrite Z.mul_comm, <- Z.pow_succ_r by lia; f_equal; lia).
  pose proof (pow2_pos (L - 1) ltac:(lia)).
  pose proof (Z.div_mod (bs_int s) (2 ^ (L - 1)) ltac:(lia)).
  assert (0 <= bs_int s / 2 ^ (L - 1) < 2).
  { split; [apply Z.div_pos; lia |]. apply Z.div_lt_upper_bound; lia. }
  rewrite Hl, Hi, Hb, Z.lor_comm, lor_shiftl_add by (change (2 ^ 1) with 2; lia).
  split; [| split; [reflexivity | exact Hinv']].
  rewrite <- Hv, HL. change (2 ^ 1) with 2. lia.
Qed.

Lemma rd_load_inv (n : nat) (Z0 v : Z) (s : BitStream) :
  bs_inv s -> Z.of_nat n <= bs_len s -> v * 2 ^ bs_len s + bs_int s = Z0 ->
  (fst (rd_load n v s)) * 2 ^ bs_len (snd (rd_load n v s)) + bs_int (snd (rd_load n v s)) = Z0 /\
  bs_len (snd (rd_load n v s)) = bs_len s - Z.of_nat n /\ bs_inv (snd (rd_load n v s)).
Proof.
  revert v s. induction n as [| n IH]; intros v s Hinv Hn Hv; cbn [rd_load].
  - cbn [fst snd]. split; [exact Hv | split; [lia | exact Hinv]].
  - destruct (bs_shift Z0 v s Hinv ltac:(lia) Hv) as (Hv' & Hl & Hinv').
    destruct (bs_next s) as [b s'] eqn:E. cbn [fst snd] in Hv', Hl, Hinv'.
    destruct (IH _ _ Hinv' ltac:(lia) Hv') as (H1 & H2 & H3).
    split; [exact H1 | split; [lia | exact H3]].
Qed.

Lemma re_renorm_nbits (f : nat) (e : RangeEncoder) :
  re_nbits e <= re_nbits (re_renorm f e).
Proof.
  revert e. induction f as [| f IH]; intros e; cbn [re_renorm]; [lia |].
  destruct (re_range e <? 128); [| lia].
  specialize (IH {| re_low := Z.shiftl (re_low e) 1; re_range := Z.shiftl (re_range e) 1;
                    re_nbits := re_nbits e + 1 |}). cbn [re_nbits] in IH. lia.
Qed.

(** Renormalisation scales the interval by a power of two. *)
Lemma re_renorm_scale (f : nat) (e : RangeEncoder) :
  exists k, 0 <= k /\ re_low (re_renorm f e) = re_low e * 2 ^ k /\
            re_range (re_renorm f e) = re_range e * 2 ^ k /\
            re_nbits (re_renorm f e) = re_nbits e + k.
Proof.
  revert e. induction f as [| f IH]; intros e; cbn [re_renorm].
  - exists 0. cbn. lia.
  - destruct (re_range e <? 128); [| exists 0; cbn; lia].
    destruct (IH {| re_low := Z.shiftl (re_low e) 1; re_range := Z.shiftl (re_range e) 1;
                    re_nbits := re_nbits e + 1 |}) as (k & Hk & Hl & Hr & Hn).
    cbn [re_low re_range re_nbits] in Hl, Hr, Hn.
    exists (k + 1). rewrite Hl, Hr, Hn, !Z.shiftl_mul_pow2, Z.pow_add_r by lia.
    change (2 ^ 1) with 2.
    split; [lia |]. split; [ring |]. split; [ring | lia].
Qed.

Lemma re_renorm_range (f : nat) (e : RangeEncoder) :
  1 <= re_range e <= 255 -> 128 <= re_range e * 2 ^ Z.of_nat f ->
  128 <= re_range (re_renorm f e) <= 255.
Proof.
  revert e. induction f as [| f IH]; intros e Hr Hf; cbn [re_renorm].
  - change (2 ^ Z.of_nat 0) with 1 in Hf. lia.
  - destruct (Z.ltb_spec (re_range e) 128); [| lia].
    apply IH; cbn [re_range]; rewrite Z.shiftl_mul_pow2 by lia; change (2 ^ 1) with 2;
      [lia |].
    rewrite Nat2Z.inj_succ, Z.pow_succ_r in Hf by lia. lia.
Qed.

Lemma split_bounds (range p : Z) : 128 <= range <= 255 -> 1 <= p <= 255 ->
  1 <= split_of range p <= range - 1.
Proof.
  intros Hr Hp. unfold split_of. rewrite Z.shiftr_div_pow2 by lia. change (2 ^ 8) with 256.
  assert (0 <= (range - 1) * p / 256) by (apply Z.div_pos; nia).
  assert ((range - 1) * p / 256 < range - 1) by (apply Z.div_lt_upper_bound; nia).
  lia.
Qed.

(** One coded bit: the sub-interval chosen before renormalisation. *)
Lemma put_bit_step (e : RangeEncoder) (b p : Z) :
  128 <= re_range e <= 255 -> bp_ok (b, p) ->
  exists lowm rangem,
    VP8PutBit e b p = re_renorm 8 {| re_low := lowm; re_range := rangem; re_nbits := re_nbits e |} /\
    1 <= rangem /\ re_low e <= lowm /\ lowm + rangem <= re_low e + re_range e /\
    (b = 0 -> lowm = re_low e /\ rangem = split_of (re_range e) p) /\
    (b = 1 -> lowm = re_low e + split_of (re_range e) p /\
              rangem = re_range e - split_of (re_range e) p).
Proof.
  intros Hr (Hb & Hp). cbn [fst snd] in Hb, Hp.
  pose proof (split_bounds _ _ Hr Hp). unfold VP8PutBit.
  destruct Hb as [-> | ->]; cbn [Z.eqb].
  - do 2 eexists. split; [reflexivity |]. repeat split; lia.
  - do 2 eexists. split; [reflexivity |]. repeat split; lia.
Qed.

(** Interval nesting: the final interval lies inside the current one,
    scaled by the number of bits shifted out in between. *)
Lemma enc_nest (pairs : list (Z * Z)) (e : RangeEncoder) :
  Forall bp_ok pairs -> 128 <= re_range e <= 255 ->
  let d := re_nbits (enc_run pairs e) - re_nbits e in
  0 <= d /\ re_low e * 2 ^ d <= re_low (enc_run pairs e) /\
  re_low (enc_run pairs e) + re_range (enc_run pairs e) <= (re_low e + re_range e) * 2 ^ d /\
  128 <= re_range (enc_run pairs e) <= 255.
Proof.
  revert e. induction pairs as [| [b p] pairs IH]; intros e Hok Hr; cbn zeta.
  - cbn [enc_run fold_left]. rewrite Z.sub_diag. change (2 ^ 0) with 1. lia.
  - inversion Hok as [| ? ? Hbp Hrest]; subst.
    destruct (put_bit_step e b p Hr Hbp) as (lowm & rangem & He1 & Hm1 & Hm2 & Hm3 & _ & _).
    change (enc_run ((b, p) :: pairs) e) with (enc_run pairs (VP8PutBit e b p)).
    rewrite He1.
    set (em := {| re_low := lowm; re_range := rangem; re_nbits := re_nbits e |}).
    destruct (re_renorm_scale 8 em) as (k & Hk & Hl & Hrg & Hn).
    assert (Hr1 : 128 <= re_range (re_renorm 8 em) <= 255).
    { apply re_renorm_range; cbn [re_range em]; [lia |].
      change (2 ^ Z.of_nat 8) with 256. lia. }
    destruct (IH _ Hrest Hr1) as (Hd & H1 & H2 & H3).
    set (eN := enc_run pairs (re_renorm 8 em)) in *.
    cbn [re_low re_range re_nbits em] in Hl, Hrg, Hn.
    rewrite Hl, Hrg, Hn in *.
    set (d1 := re_nbits eN - (re_nbits e + k)) in *.
    replace (re_nbits eN - re_nbits e) with (k + d1) by (unfold d1; lia).
    rewrite Z.pow_add_r by lia.
    pose proof (pow2_pos k Hk). pose proof (pow2_pos d1 Hd).
    split; [lia |]. split; [| split; [| exact H3]].
    + assert (re_low e * (2 ^ k * 2 ^ d1) <= lowm * 2 ^ k * 2 ^ d1) by nia. lia.
    + assert ((lowm + rangem) * 2 ^ k * 2 ^ d1 <= (re_low e + re_range e) * (2 ^ k * 2 ^ d1))
        by nia. nia.
Qed.

Lemma bs_next_bit (s : BitStream) : 0 <= fst (bs_next s) < 2.
Proof.
  unfold bs_next. destruct (bs_left s =? 0); [destruct (bs_in s) |];
    cbn [fst]; rewrite land1; apply Z.mod_pos_bound; lia.
Qed.

Lemma shift_in_bit (v b : Z) : 0 <= b < 2 -> Z.lor (Z.shiftl v 1) b = 2 * v + b.
Proof.
  intros Hb. rewrite Z.lor_comm, lor_shiftl_add by (change (2 ^ 1) with 2; lia).
  change (2 ^ 1) with 2. ring.
Qed.

(** Encoder and decoder renormalise in lockstep. *)
Lemma renorm_sync (f : nat) (Z0 M : Z) (e : RangeEncoder) (d : RangeDecoder) :
  dec_inv Z0 M e d -> re_nbits (re_renorm f e) <= M - 8 ->
  dec_inv Z0 M (re_renorm f e) (rd_renorm f d).
Proof.
  revert e d. induction f as [| f IH]; intros e d Hinv Hn; cbn [re_renorm rd_renorm] in *;
    [exact Hinv |].
  pose proof Hinv as (Hr & Hs & Hl & Hv).
  rewrite Hr. destruct (re_range e <? 128); [| exact Hinv].
  set (e' := {| re_low := Z.shiftl (re_low e) 1; re_range := Z.shiftl (re_range e) 1;
                re_nbits := re_nbits e + 1 |}) in *.
  pose proof (re_renorm_nbits f e') as Hmono. cbn [re_nbits e'] in Hmono.
  destruct (bs_shift Z0 (rd_value d + re_low e) (rd_stream d) Hs ltac:(lia) Hv)
    as (Hv' & Hl' & Hs').
  pose proof (bs_next_bit (rd_stream d)) as Hbit.
  destruct (bs_next (rd_stream d)) as [b s'] eqn:E. cbn [fst snd] in Hv', Hl', Hs', Hbit.
  apply IH; [| exact Hn].
  unfold dec_inv; cbn [rd_range rd_stream rd_value re_range re_low re_nbits e'].
  split; [reflexivity |]. split; [exact Hs' |]. split; [lia |].
  rewrite <- Hv'. rewrite !shift_in_bit by lia. rewrite Z.shiftl_mul_pow2 by lia.
  change (2 ^ 1) with 2. ring.
Qed.

(** The decoder reads back the bits of any run it is synchronised with. *)
Lemma dec_run (pairs : list (Z * Z)) (Z0 M pad : Z) (e : RangeEncoder) (d : RangeDecoder) :
  Forall bp_ok pairs -> 128 <= re_range e <= 255 -> 0 <= pad ->
  Z0 = re_low (enc_run pairs e) * 2 ^ pad -> M = re_nbits (enc_run pairs e) + 8 + pad ->
  dec_inv Z0 M e d ->
  rd_read_seq d (map snd pairs) = map fst pairs.
Proof.
  revert e d. induction pairs as [| [b p] pairs IH]; intros e d Hok Hr Hpad HZ HM Hinv;
    [reflexivity |].
  inversion Hok as [| ? ? Hbp Hrest]; subst Z0 M l x.
  change (enc_run ((b, p) :: pairs) e) with (enc_run pairs (VP8PutBit e b p)) in *.
  destruct (put_bit_step e b p Hr Hbp)
    as (lowm & rangem & He1 & Hm1 & Hm2 & Hm3 & Hb0 & Hb1).
  set (em := {| re_low := lowm; re_range := rangem; re_nbits := re_nbits e |}) in *.
  assert (Hr1 : 128 <= re_range (re_renorm 8 em) <= 255).
  { apply re_renorm_range; cbn [re_range em]; [lia |].
    change (2 ^ Z.of_nat 8) with 256. lia. }
  destruct (re_renorm_scale 8 em) as (k & Hk & Hsl & Hsr & Hsn).
  cbn [re_low re_range re_nbits em] in Hsl, Hsr, Hsn.
  rewrite He1 in *.
  destruct (enc_nest pairs (re_renorm 8 em) Hrest Hr1) as (Hd & HN1 & HN2 & HN3).
  cbn zeta in Hd, HN1, HN2.
  set (eN := enc_run pairs (re_renorm 8 em)) in *.
  rewrite Hsl, Hsn in HN1. rewrite Hsl, Hsr, Hsn in HN2. rewrite Hsn in Hd.
  set (d1 := re_nbits eN - (re_nbits e + k)) in *.
  pose proof Hinv as (Hrd & Hs & Hl & Hv).
  set (L := bs_len (rd_stream d)) in *.
  set (V := rd_value d + re_low e) in *.
  (* The bits consumed so far locate the final interval's low end. *)
  assert (HL : L = (k + d1) + pad) by (unfold d1; lia).
  pose proof (pow2_pos k Hk). pose proof (pow2_pos d1 Hd). pose proof (pow2_pos pad Hpad).
  pose proof (bs_int_bound _ Hs) as Hbd. fold L in Hbd.
  assert (HP : 2 ^ L = 2 ^ k * 2 ^ d1 * 2 ^ pad)
    by (rewrite HL, !Z.pow_add_r by lia; ring).
  assert (HV1 : lowm <= V).
  { assert (lowm * 2 ^ k * 2 ^ d1 * 2 ^ pad <= re_low eN * 2 ^ pad) by nia.
    assert (re_low eN * 2 ^ pad < (V + 1) * 2 ^ L) by nia.
    rewrite HP in *. nia. }
  assert (HV2 : V < lowm + rangem).
  { assert (re_low eN + 1 <= (lowm + rangem) * 2 ^ k * 2 ^ d1) by nia.
    assert (V * 2 ^ L <= re_low eN * 2 ^ pad) by nia.
    rewrite HP in *. nia. }
  (* The decoder takes the same branch as the encoder. *)
  cbn [map rd_read_seq fst snd]. unfold VP8GetBit. rewrite Hrd.
  unfold bp_ok in Hbp; cbn [fst snd] in Hbp. destruct Hbp as ([-> | ->] & Hp).
  - destruct (Hb0 eq_refl) as (-> & ->).
    destruct (Z.leb_spec (split_of (re_range e) p) (rd_value d)) as [Hc | Hc];
      [unfold V in *; lia |].
    f_equal. apply (IH (re_renorm 8 em)); [exact Hrest | exact Hr1 | exact Hpad | | |].
    + reflexivity.
    + reflexivity.
    + apply renorm_sync; [| rewrite Hsn; unfold d1 in Hd; lia].
      unfold dec_inv; cbn [rd_range rd_stream rd_value re_range re_low re_nbits em].
      split; [reflexivity |]. split; [exact Hs |]. split; [exact Hl | exact Hv].
  - destruct (Hb1 eq_refl) as (-> & ->).
    destruct (Z.leb_spec (split_of (re_range e) p) (rd_value d)) as [Hc | Hc];
      [| unfold V in *; lia].
    f_equal. apply (IH (re_renorm 8 em)); [exact Hrest | exact Hr1 | exact Hpad | | |].
    + reflexivity.
    + reflexivity.
    + apply renorm_sync; [| rewrite Hsn; unfold d1 in Hd; lia].
      unfold dec_inv; cbn [rd_range rd_stream rd_value re_range re_low re_nbits em].
      split; [reflexivity |]. split; [exact Hs |]. split; [exact Hl |].
      rewrite <- Hv. unfold V, L. ring.
Qed.

Lemma be_bytes_spec (k : nat) (x : Z) : 0 <= x ->
  be_int (be_bytes k x) = x mod 2 ^ (8 * Z.of_nat k) /\ length (be_bytes k x) = k /\
  Forall is_byte (be_bytes k x).
Proof.
  intros Hx. induction k as [| k IH]; cbn [be_bytes be_int length].
  - split; [rewrite Z.mod_1_r; reflexivity | split; [reflexivity | constructor]].
  - destruct IH as (Hi & Hl & Hf). rewrite Hi, Hl.
    pose proof (pow2_pos (8 * Z.of_nat k) ltac:(lia)).
    rewrite Z.shiftr_div_pow2, land255 by lia.
    split; [| split; [reflexivity | constructor; [apply mod256_byte | exact Hf]]].
    rewrite Nat2Z.inj_succ.
    replace (8 * Z.succ (Z.of_nat k)) with (8 * Z.of_nat k + 8) by lia.
    rewrite Z.pow_add_r by lia. change (2 ^ 8) with 256.
    rewrite mod_mul_split by lia. ring.
Qed.

(** C2: for every finite sequence of (bit, probability) pairs with each bit
    0 or 1 and each probability in [1, 255], encoding the sequence with the
    binary range coder and decoding the bytes with the same probabilities
    in the same order gives back the original bits; both sides use the split
    [1 + (((range - 1) * probability) >> 8)] ([split_of]). *)
Theorem bool_roundtrip (pairs : list (Z * Z)) :
  Forall bp_ok pairs ->
  c_bool_read_sequence (c_bool_write_sequence pairs) (map snd pairs) = map fst pairs.
Proof.
  intros Hok.
  destruct (enc_nest pairs VP8BitWriterInit Hok ltac:(cbn; lia)) as (Hd & H1 & H2 & H3).
  cbn zeta in Hd, H1, H2.
  change (c_bool_write_sequence pairs) with (VP8BitWriterFinish (enc_run pairs VP8BitWriterInit)).
  set (eN := enc_run pairs VP8BitWriterInit) in *.
  cbn [re_low re_range re_nbits VP8BitWriterInit] in Hd, H1, H2.
  rewrite Z.sub_0_r in *. rewrite Z.mul_0_l in H1.
  set (n := re_nbits eN) in *.
  unfold VP8BitWriterFinish. fold n.
  set (pad := (8 - (n + 8) mod 8) mod 8).
  assert (Hpad : 0 <= pad < 8) by (apply Z.mod_pos_bound; lia).
  assert (HK : 8 * ((n + 8 + pad) / 8) = n + 8 + pad)
    by (unfold pad; Z.div_mod_to_equations; lia).
  pose proof (pow2_pos n Hd). pose proof (pow2_pos pad ltac:(lia)).
  set (Z0 := re_low eN * 2 ^ pad).
  assert (HZ0 : 0 <= Z0 < 2 ^ (8 * Z.of_nat (Z.to_nat ((n + 8 + pad) / 8)))).
  { rewrite Z2Nat.id by lia. rewrite HK, !Z.pow_add_r by lia. change (2 ^ 8) with 256.
    unfold Z0. split; [nia |]. nia. }
  rewrite Z.shiftl_mul_pow2 by lia. fold Z0.
  set (bytes := be_bytes (Z.to_nat ((n + 8 + pad) / 8)) Z0).
  destruct (be_bytes_spec (Z.to_nat ((n + 8 + pad) / 8)) Z0 ltac:(lia)) as (Hi & Hl & Hf).
  fold bytes in Hi, Hl, Hf. rewrite Z.mod_small in Hi by exact HZ0.
  assert (Hs0 : bs_inv (bs_init bytes)) by (split; [cbn; lia | exact Hf]).
  assert (Hlen0 : bs_len (bs_init bytes) = n + 8 + pad).
  { unfold bs_len; cbn [bs_left bs_in bs_init]. rewrite Hl, Z2Nat.id by lia. lia. }
  assert (Hint0 : 0 * 2 ^ bs_len (bs_init bytes) + bs_int (bs_init bytes) = Z0).
  { unfold bs_int; cbn [bs_left bs_in bs_cur bs_init]. rewrite Hi. cbn. reflexivity. }
  destruct (rd_load_inv 8 Z0 0 (bs_init bytes) Hs0 ltac:(rewrite Hlen0; cbn; lia) Hint0)
    as (Hv & Hl8 & Hs8).
  unfold c_bool_read_sequence, VP8InitBitReader.
  destruct (rd_load 8 0 (bs_init bytes)) as [v s] eqn:E. cbn [fst snd] in Hv, Hl8, Hs8.
  apply (dec_run pairs Z0 (n + 8 + pad) pad VP8BitWriterInit);
    [exact Hok | cbn; lia | lia | reflexivity | reflexivity |].
  unfold dec_inv; cbn [rd_range rd_stream rd_value re_range re_low re_nbits VP8BitWriterInit].
  split; [reflexivity |]. split; [exact Hs8 |].
  split; [rewrite Hlen0 in Hl8; change (Z.of_nat 8) with 8 in Hl8; lia |].
  rewrite Z.add_0_r. exact Hv.
Qed.

Lemma bool_roundtrip_witness :
  Forall bp_ok [(1, 128); (0, 128); (1, 128); (1, 128); (0, 128); (1, 1); (0, 255); (1, 200)] /\
  c_bool_read_sequence
    (c_bool_write_sequence
       [(1, 128); (0, 128); (1, 128); (1, 128); (0, 128); (1, 1); (0, 255); (1, 200)])
    (map snd [(1, 128); (0, 128); (1, 128); (1, 128); (0, 128); (1, 1); (0, 255); (1, 200)])
  = map fst [(1, 128); (0, 128); (1, 128); (1, 128); (0, 128); (1, 1); (0, 255); (1, 200)].
Proof.
  assert (H : Forall bp_ok
                [(1, 128); (0, 128); (1, 128); (1, 128); (0, 128); (1, 1); (0, 255); (1, 200)])
    by (repeat constructor; unfold bp_ok; cbn; lia).
  split; [exact H | apply (bool_roundtrip _ H)].
Defined.

(** ** Further properties of the lossless DSP code *)

Lemma Average2_lane (k a b : Z) : 0 <= k < 4 -> is_u32 a -> is_u32 b ->
  byte_at k (Average2 a b) = (byte_at k a + byte_at k b) / 2.
Proof.
  intros Hk Ha Hb. rewrite Average2_lanes by assumption.
  lane_cases k; lane_of_pack; reflexivity.
Qed.

Lemma Average3_lane (k a0 a1 a2 : Z) : 0 <= k < 4 -> is_u32 a0 -> is_u32 a1 -> is_u32 a2 ->
  byte_at k (Average3 a0 a1 a2) = ((byte_at k a0 + byte_at k a2) / 2 + byte_at k a1) / 2.
Proof.
  intros Hk H0 H1 H2. unfold Average3.
  rewrite Average2_lane, Average2_lane by (apply u32_range || assumption). reflexivity.
Qed.

Lemma Average4_lane (k a0 a1 a2 a3 : Z) :
  0 <= k < 4 -> is_u32 a0 -> is_u32 a1 -> is_u32 a2 -> is_u32 a3 ->
  byte_at k (Average4 a0 a1 a2 a3) =
  ((byte_at k a0 + byte_at k a1) / 2 + (byte_at k a2 + byte_at k a3) / 2) / 2.
Proof.
  intros Hk H0 H1 H2 H3. unfold Average4.
  rewrite Average2_lane, !(Average2_lane k) by (apply u32_range || assumption). reflexivity.
Qed.

(** Two 32-bit values with the same four lanes are equal. *)
Lemma lanes_eq (x y : Z) : is_u32 x -> is_u32 y ->
  (forall k, 0 <= k < 4 -> byte_at k x = byte_at k y) -> x = y.
Proof.
  intros Hx Hy H. rewrite (pack_bytes x Hx), (pack_bytes y Hy).
  rewrite !H by lia. reflexivity.
Qed.

Lemma Average2_same (a : Z) : is_u32 a -> Average2 a a = a.
Proof.
  intros Ha. apply lanes_eq; [apply u32_range | exact Ha |].
  intros k Hk. rewrite Average2_lane by assumption.
  replace (byte_at k a + byte_at k a) with (byte_at k a * 2) by ring.
  apply Z.div_mul. lia.
Qed.

Lemma Select_lanes (a b c : Z) : is_u32 a -> is_u32 b -> is_u32 c ->
  Select a b c =
  if sum_lanes (fun k => Z.abs (byte_at k b - byte_at k c) - Z.abs (byte_at k a - byte_at k c)) <=? 0
  then a else b.
Proof.
  intros Ha Hb Hc. unfold Select, Sub3, sum_lanes.
  rewrite (shiftr24 a), (shiftr24 b), (shiftr24 c) by assumption.
  reflexivity.
Qed.

Lemma clamp_wide_pos (v : Z) : 256 <= v < 2 ^ 24 -> Clip255 (u32 v) = clamp255 v.
Proof.
  intros Hv. unfold Clip255, clamp255, u32.
  rewrite (Z.mod_small v) by lia.
  destruct (Z.ltb_spec v 256); [lia |].
  rewrite Z.shiftr_div_pow2 by lia. rewrite Z.lnot_eq_pred_opp.
  replace (Z.min 255 v) with 255 by lia.
  change (2 ^ 24) with 16777216 in *. change (2 ^ 32) with 4294967296.
  Z.div_mod_to_equations. lia.
Qed.

Lemma clamp_wide_neg (v : Z) : - 2 ^ 24 <= v < 0 -> Clip255 (u32 v) = clamp255 v.
Proof.
  intros Hv. unfold Clip255, clamp255, u32.
  replace (v mod 2 ^ 32) with (2 ^ 32 + v) by (apply Z.mod_unique with (-1); lia).
  destruct (Z.ltb_spec (2 ^ 32 + v) 256); [lia |].
  rewrite Z.shiftr_div_pow2 by lia. rewrite Z.lnot_eq_pred_opp.
  replace (Z.max 0 (Z.min 255 v)) with 0 by lia.
  change (2 ^ 24) with 16777216 in *. change (2 ^ 32) with 4294967296 in *.
  Z.div_mod_to_equations. lia.
Qed.

(** X: [Clip255] applied to [(uint32_t)v] saturates [v] to [0, 255] exactly
    when [v] lies in [-2^24, 2^24): the bound is tight on both sides, where
    [2^24] gives 254 and [-2^24 - 1] gives 1. *)
Theorem Clip255_saturation_range (v : Z) (Hv : - 2 ^ 24 <= v < 2 ^ 24) :
  Clip255 (u32 v) = clamp255 v /\
  Clip255 (u32 (2 ^ 24)) = 254 /\ Clip255 (u32 (- 2 ^ 24 - 1)) = 1.
Proof.
  split; [| split; reflexivity].
  destruct (Z.lt_ge_cases v 0); [apply clamp_wide_neg; lia |].
  destruct (Z.lt_ge_cases v 256); [| apply clamp_wide_pos; lia].
  unfold Clip255, clamp255, u32. rewrite Z.mod_small by lia.
  destruct (Z.ltb_spec v 256); lia.
Qed.

Lemma Clip255_saturation_range_witness :
  (- 2 ^ 24 <= -70000 < 2 ^ 24) /\ Clip255 (u32 (-70000)) = clamp255 (-70000).
Proof.
  assert (H : - 2 ^ 24 <= -70000 < 2 ^ 24) by lia.
  split; [exact H | exact (proj1 (Clip255_saturation_range (-70000) H))].
Defined.

(** X: [Average3 a0 a1 a2 = Average2 (Average2 a0 a2) a1] computes on every
    byte lane the floor of the floor average of the [a0] and [a2] lanes and
    the [a1] lane. *)
Theorem Average3_per_lane (a0 a1 a2 : Z) (H0 : is_u32 a0) (H1 : is_u32 a1) (H2 : is_u32 a2) :
  is_u32 (Average3 a0 a1 a2) /\
  forall k, 0 <= k < 4 ->
    byte_at k (Average3 a0 a1 a2) = ((byte_at k a0 + byte_at k a2) / 2 + byte_at k a1) / 2.
Proof.
  split; [apply u32_range |]. intros k Hk. apply Average3_lane; assumption.
Qed.

Lemma Average3_per_lane_witness :
  (is_u32 0x00ff10ff /\ is_u32 0xff000001 /\ is_u32 0x01ff2001) /\
  byte_at 0 (Average3 0x00ff10ff 0xff000001 0x01ff2001) = ((0xff + 0x01) / 2 + 0x01) / 2.
Proof.
  assert (H0 : is_u32 0x00ff10ff) by (unfold is_u32; lia).
  assert (H1 : is_u32 0xff000001) by (unfold is_u32; lia).
  assert (H2 : is_u32 0x01ff2001) by (unfold is_u32; lia).
  split; [auto |].
  exact (proj2 (Average3_per_lane _ _ _ H0 H1 H2) 0 ltac:(lia)).
Defined.

(** X: [Average4 a0 a1 a2 a3 = Average2 (Average2 a0 a1) (Average2 a2 a3)]
    computes on every byte lane the floor average of the two floor averages
    of the lane pairs. *)
Theorem Average4_per_lane (a0 a1 a2 a3 : Z)
  (H0 : is_u32 a0) (H1 : is_u32 a1) (H2 : is_u32 a2) (H3 : is_u32 a3) :
  is_u32 (Average4 a0 a1 a2 a3) /\
  forall k, 0 <= k < 4 ->
    byte_at k (Average4 a0 a1 a2 a3) =
    ((byte_at k a0 + byte_at k a1) / 2 + (byte_at k a2 + byte_at k a3) / 2) / 2.
Proof.
  split; [apply u32_range |]. intros k Hk. apply Average4_lane; assumption.
Qed.

Lemma Average4_per_lane_witness :
  (is_u32 0xffffffff /\ is_u32 0x01010101 /\ is_u32 0x80808080 /\ is_u32 0) /\
  byte_at 3 (Average4 0xffffffff 0x01010101 0x80808080 0) = ((0xff + 1) / 2 + (0x80 + 0) / 2) / 2.
Proof.
  assert (H0 : is_u32 0xffffffff) by (unfold is_u32; lia).
  assert (H1 : is_u32 0x01010101) by (unfold is_u32; lia).
  assert (H2 : is_u32 0x80808080) by (unfold is_u32; lia).
  assert (H3 : is_u32 0) by (unfold is_u32; lia).
  split; [auto |].
  exact (proj2 (Average4_per_lane _ _ _ _ H0 H1 H2 H3) 3 ltac:(lia)).
Defined.

(** X: with all four neighbours readable, predictors 5 to 10 compute on each
    byte lane the floor averages of [Average3(left, top[0], top[1])],
    [Average2(left, top[-1])], [Average2(left, top[0])],
    [Average2(top[-1], top[0])], [Average2(top[0], top[1])] and
    [Average4(left, top[-1], top[0], top[1])]. *)
Theorem predictors_5_to_10_lanes (L TL T TR : Z)
  (HL : is_u32 L) (HTL : is_u32 TL) (HT : is_u32 T) (HTR : is_u32 TR) :
  forall k, 0 <= k < 4 ->
    let l := byte_at k L in let tl := byte_at k TL in
    let t := byte_at k T in let tr := byte_at k TR in
    let row := top_row TL T TR in
    option_map (byte_at k) (c_predictor 5 (Some L) row) = Some (((l + tr) / 2 + t) / 2) /\
    option_map (byte_at k) (c_predictor 6 (Some L) row) = Some ((l + tl) / 2) /\
    option_map (byte_at k) (c_predictor 7 (Some L) row) = Some ((l + t) / 2) /\
    option_map (byte_at k) (c_predictor 8 (Some L) row) = Some ((tl + t) / 2) /\
    option_map (byte_at k) (c_predictor 9 (Some L) row) = Some ((t + tr) / 2) /\
    option_map (byte_at k) (c_predictor 10 (Some L) row) =
      Some (((l + tl) / 2 + (t + tr) / 2) / 2).
Proof.
  intros k Hk l tl t tr row. subst l tl t tr row.
  change (c_predictor 5 (Some L) (top_row TL T TR)) with (Some (Average3 L T TR)).
  change (c_predictor 6 (Some L) (top_row TL T TR)) with (Some (Average2 L TL)).
  change (c_predictor 7 (Some L) (top_row TL T TR)) with (Some (Average2 L T)).
  change (c_predictor 8 (Some L) (top_row TL T TR)) with (Some (Average2 TL T)).
  change (c_predictor 9 (Some L) (top_row TL T TR)) with (Some (Average2 T TR)).
  change (c_predictor 10 (Some L) (top_row TL T TR)) with (Some (Average4 L TL T TR)).
  cbn [option_map].
  rewrite Average3_lane, Average4_lane, !(Average2_lane k) by assumption.
  repeat split.
Qed.

Lemma predictors_5_to_10_lanes_witness :
  option_map (byte_at 1) (c_predictor 10 (Some 0x0000ff00) (top_row 0x00000100 0x00008000 0x0000ff00)) =
  Some (((0xff + 0x01) / 2 + (0x80 + 0xff) / 2) / 2).
Proof.
  refine (proj2 (proj2 (proj2 (proj2 (proj2
    (predictors_5_to_10_lanes 0x0000ff00 0x00000100 0x00008000 0x0000ff00 _ _ _ _ 1 _))))));
    unfold is_u32; lia.
Defined.

Lemma existsb_out (mode : Z) (l : list Z) :
  Forall (fun x => 1 <= x <= 13) l -> mode < 1 \/ 13 < mode -> existsb (Z.eqb mode) l = false.
Proof.
  intros Hl Hm. induction Hl as [| x l Hx _ IH]; [reflexivity |].
  cbn [existsb]. rewrite IH, orb_false_r. apply Z.eqb_neq. lia.
Qed.

(** X: which neighbours each predictor reads.  With a readable top row every
    mode returns a pixel.  Making [*left] unreadable makes modes 1, 5, 6, 7,
    10, 11, 12 and 13 fail and changes nothing for the others; [top[-1]] is
    read exactly by modes 4, 6, 8, 10, 11, 12 and 13, [top[0]] by modes 2, 5,
    7, 8, 9, 10, 11, 12 and 13, [top[1]] by modes 3, 5, 9 and 10.  Modes
    outside [0, 13] read nothing. *)
Theorem c_predictor_neighbour_reads (mode L TL T TR : Z) :
  let row := top_row TL T TR in
  (exists v, c_predictor mode (Some L) row = Some v) /\
  c_predictor mode None row =
    (if existsb (Z.eqb mode) [1; 5; 6; 7; 10; 11; 12; 13] then None
     else c_predictor mode (Some L) row) /\
  c_predictor mode (Some L) (hide_top (-1) row) =
    (if existsb (Z.eqb mode) [4; 6; 8; 10; 11; 12; 13] then None
     else c_predictor mode (Some L) row) /\
  c_predictor mode (Some L) (hide_top 0 row) =
    (if existsb (Z.eqb mode) [2; 5; 7; 8; 9; 10; 11; 12; 13] then None
     else c_predictor mode (Some L) row) /\
  c_predictor mode (Some L) (hide_top 1 row) =
    (if existsb (Z.eqb mode) [3; 5; 9; 10] then None
     else c_predictor mode (Some L) row).
Proof.
  intros row.
  destruct (Z.lt_ge_cases mode 0) as [Hm | Hm0];
    [| destruct (Z.lt_ge_cases 13 mode) as [Hm | Hm13]].
  1, 2:
    assert (Hc : forall l t, c_predictor mode l t = Some 0)
      by (intros l t; unfold c_predictor;
          destruct (Z.ltb_spec mode 0); destruct (Z.gtb_spec mode 13);
          simpl; auto; lia);
    rewrite !Hc, !existsb_out by (repeat constructor; lia);
    split; [eexists; reflexivity | repeat split].
  assert (Hcase : mode = 0 \/ mode = 1 \/ mode = 2 \/ mode = 3 \/ mode = 4 \/ mode = 5 \/
                  mode = 6 \/ mode = 7 \/ mode = 8 \/ mode = 9 \/ mode = 10 \/ mode = 11 \/
                  mode = 12 \/ mode = 13) by lia.
  repeat destruct Hcase as [-> | Hcase]; subst;
    (split; [eexists; reflexivity |]);
    (split; [reflexivity |]); (split; [reflexivity |]); (split; [reflexivity |]);
    reflexivity.
Qed.

(** X: predictor 11 follows the gradient: when the top pixel equals the
    top-left pixel it predicts the left pixel, and when the left pixel equals
    the top-left pixel it predicts the top pixel. *)
Theorem pred11_gradient (L TL T TR : Z) (HL : is_u32 L) (HT : is_u32 T) (HTL : is_u32 TL) :
  (T = TL -> c_predictor 11 (Some L) (top_row TL T TR) = Some L) /\
  (L = TL -> c_predictor 11 (Some L) (top_row TL T TR) = Some T).
Proof.
  change (c_predictor 11 (Some L) (top_row TL T TR)) with (Some (Select T L TL)).
  rewrite Select_lanes by assumption. unfold sum_lanes.
  split; intros E; subst.
  - match goal with |- context [?s <=? 0] => destruct (Z.leb_spec s 0) as [Hs | Hs] end; [| reflexivity].
    f_equal. apply lanes_eq; [exact HTL | exact HL |].
    intros k Hk. rewrite Z.sub_diag in Hs. cbn [Z.abs] in Hs.
    pose proof (Z.abs_nonneg (byte_at 3 L - byte_at 3 TL)).
    pose proof (Z.abs_nonneg (byte_at 2 L - byte_at 2 TL)).
    pose proof (Z.abs_nonneg (byte_at 1 L - byte_at 1 TL)).
    pose proof (Z.abs_nonneg (byte_at 0 L - byte_at 0 TL)).
    lane_cases k; lia.
  - match goal with |- context [?s <=? 0] => destruct (Z.leb_spec s 0) as [Hs | Hs] end; [reflexivity |].
    rewrite !Z.sub_diag in Hs. cbn [Z.abs] in Hs.
    pose proof (Z.abs_nonneg (byte_at 3 T - byte_at 3 TL)).
    pose proof (Z.abs_nonneg (byte_at 2 T - byte_at 2 TL)).
    pose proof (Z.abs_nonneg (byte_at 1 T - byte_at 1 TL)).
    pose proof (Z.abs_nonneg (byte_at 0 T - byte_at 0 TL)).
    lia.
Qed.

Lemma pred11_gradient_witness :
  c_predictor 11 (Some 0x11223344) (top_row 0x00ff00ff 0x00ff00ff 0) = Some 0x11223344.
Proof.
  refine (proj1 (pred11_gradient 0x11223344 0x00ff00ff 0x00ff00ff 0 _ _ _) eq_refl);
    unfold is_u32; lia.
Defined.

Lemma ASCF_same (x : Z) : is_byte x -> AddSubtractComponentFull x x x = x.
Proof.
  unfold is_byte, AddSubtractComponentFull, Clip255, u32. intros Hx.
  replace (x + x - x) with x by ring. rewrite Z.mod_small by lia.
  change (2 ^ 8) with 256 in Hx. destruct (Z.ltb_spec x 256); lia.
Qed.

Lemma ASCH_same (x : Z) : is_byte x -> AddSubtractComponentHalf x x = x.
Proof.
  unfold is_byte, AddSubtractComponentHalf, Clip255, u32. intros Hx.
  rewrite Z.sub_diag. change (Z.quot 0 2) with 0. rewrite Z.add_0_r.
  rewrite Z.mod_small by lia.
  change (2 ^ 8) with 256 in Hx. destruct (Z.ltb_spec x 256); lia.
Qed.

Lemma ClampedAddSubtractFull_same (p : Z) : is_u32 p -> ClampedAddSubtractFull p p p = p.
Proof.
  intros Hp. unfold ClampedAddSubtractFull. rewrite (shiftr24 p) by exact Hp.
  change (Z.land (Z.shiftr p 16) 255) with (byte_at 2 p).
  change (Z.land (Z.shiftr p 8) 255) with (byte_at 1 p).
  change (Z.land p 255) with (byte_at 0 p).
  rewrite !ASCF_same by apply byte_at_byte.
  symmetry. apply pack_bytes, Hp.
Qed.

Lemma ClampedAddSubtractHalf_same (p : Z) : is_u32 p -> ClampedAddSubtractHalf p p p = p.
Proof.
  intros Hp. unfold ClampedAddSubtractHalf. rewrite Average2_same by exact Hp.
  rewrite (shiftr24 p) by exact Hp.
  change (Z.land (Z.shiftr p 16) 255) with (byte_at 2 p).
  change (Z.land (Z.shiftr p 8) 255) with (byte_at 1 p).
  change (Z.land (Z.shiftr p 0) 255) with (byte_at 0 p).
  rewrite !ASCH_same by apply byte_at_byte.
  symmetry. apply pack_bytes, Hp.
Qed.

Lemma Select_same (p : Z) : Select p p p = p.
Proof. unfold Select. destruct (_ <=? 0); reflexivity. Qed.

(** X: on a flat neighbourhood, where the left pixel and the three top pixels
    are all the same 32-bit pixel [p], every mode from 1 to 13 predicts [p]. *)
Theorem c_predictor_flat (mode p : Z) (Hm : 1 <= mode <= 13) (Hp : is_u32 p) :
  c_predictor mode (Some p) (top_row p p p) = Some p.
Proof.
  assert (Hcase : mode = 1 \/ mode = 2 \/ mode = 3 \/ mode = 4 \/ mode = 5 \/
                  mode = 6 \/ mode = 7 \/ mode = 8 \/ mode = 9 \/ mode = 10 \/ mode = 11 \/
                  mode = 12 \/ mode = 13) by lia.
  repeat destruct Hcase as [-> | Hcase]; subst;
    cbv -[Average2 Average3 Average4 Select ClampedAddSubtractFull ClampedAddSubtractHalf];
    f_equal; unfold Average3, Average4;
    rewrite ?Average2_same, ?Select_same, ?ClampedAddSubtractFull_same,
      ?ClampedAddSubtractHalf_same by (exact Hp || apply u32_range); reflexivity.
Qed.

Lemma c_predictor_flat_witness :
  c_predictor 13 (Some 0x80402010) (top_row 0x80402010 0x80402010 0x80402010) = Some 0x80402010.
Proof. apply c_predictor_flat; unfold is_u32; lia. Defined.

Lemma subtract_green_add_green_px (q : Z) : is_u32 q -> subtract_green_px (add_green_px q) = q.
Proof.
  intros Hq. rewrite add_green_px_spec by exact Hq.
  rewrite subtract_green_px_spec by (apply pack_u32; auto with lanes).
  lane_of_pack.
  pose proof (byte_at_byte 2 q) as Hr. pose proof (byte_at_byte 0 q) as Hb.
  unfold is_byte in Hr, Hb. change (2 ^ 8) with 256 in Hr, Hb.
  rewrite !Zminus_mod_idemp_l, !Z.add_simpl_r, !Z.mod_small by lia.
  symmetry. apply pack_bytes, Hq.
Qed.

(** X: [c_add_green] keeps the alpha and green lanes of every 32-bit pixel
    and adds green to red and to blue modulo 256; [c_subtract_green] undoes
    it, so subtracting green after adding it gives back every array of 32-bit
    pixels. *)
Theorem add_green_lanes_and_inverse (data : list Z) (Hdata : Forall is_u32 data) :
  (forall q, is_u32 q ->
     is_u32 (add_green_px q) /\
     byte_at 3 (add_green_px q) = byte_at 3 q /\
     byte_at 2 (add_green_px q) = (byte_at 2 q + byte_at 1 q) mod 256 /\
     byte_at 1 (add_green_px q) = byte_at 1 q /\
     byte_at 0 (add_green_px q) = (byte_at 0 q + byte_at 1 q) mod 256) /\
  c_subtract_green (c_add_green data) = data.
Proof.
  split.
  - intros q Hq. rewrite add_green_px_spec by exact Hq.
    split; [apply pack_u32; auto with lanes |].
    repeat split; lane_of_pack; reflexivity.
  - unfold c_subtract_green, c_add_green. rewrite map_map.
    induction Hdata as [| x data Hx _ IH]; [reflexivity |].
    cbn [map]. rewrite subtract_green_add_green_px, IH by exact Hx. reflexivity.
Qed.

Lemma add_green_lanes_and_inverse_witness :
  c_subtract_green (c_add_green [0xdeadbeef; 0x00ff80ff; 0xffffffff]) =
  [0xdeadbeef; 0x00ff80ff; 0xffffffff].
Proof.
  refine (proj2 (add_green_lanes_and_inverse _ _)).
  repeat constructor; unfold is_u32; lia.
Defined.

Lemma transform_color_inverse_roundtrip_px (m : CMultipliers) (q : Z) : is_u32 q ->
  transform_color_px m (transform_color_inverse_px m q) = q.
Proof.
  intros Hq. rewrite (transform_color_inverse_px_spec m q Hq). cbv zeta.
  rewrite transform_color_px_spec by (apply pack_u32; auto with lanes).
  lane_of_pack.
  set (g := byte_at 1 q). set (r := byte_at 2 q). set (b := byte_at 0 q).
  set (D1 := ColorTransformDelta (i8 (green_to_red m)) (i8 g)).
  set (D2 := ColorTransformDelta (i8 (green_to_blue m)) (i8 g)).
  set (D3 := ColorTransformDelta (i8 (red_to_blue m)) (i8 ((r + D1) mod 256))).
  assert (Er : ((r + D1) mod 256 - D1) mod 256 = r).
  { rewrite Zminus_mod_idemp_l. replace (r + D1 - D1) with r by ring.
    apply Z.mod_small. pose proof (byte_at_byte 2 q). unfold is_byte in *. lia. }
  assert (Eb : ((b + D2 + D3) mod 256 - D2 - D3) mod 256 = b).
  { rewrite <- Z.sub_add_distr, Zminus_mod_idemp_l.
    replace (b + D2 + D3 - (D2 + D3)) with b by ring.
    apply Z.mod_small. pose proof (byte_at_byte 0 q). unfold is_byte in *. lia. }
  rewrite Er, Eb. symmetry. apply pack_bytes; exact Hq.
Qed.

(** X: for every multiplier tuple, the forward color transform applied to the
    inverse transform gives back every array of 32-bit pixels: the two
    transforms are inverse bijections of the 32-bit pixels. *)
Theorem transform_color_after_inverse (m : CMultipliers) (data : list Z)
  (Hdata : Forall is_u32 data) :
  c_transform_color m (c_transform_color_inverse m data) = data.
Proof.
  unfold c_transform_color_inverse, c_transform_color. rewrite map_map.
  induction Hdata as [| p data Hp _ IH]; [reflexivity |].
  cbn [map]. rewrite transform_color_inverse_roundtrip_px, IH by exact Hp. reflexivity.
Qed.

Lemma transform_color_after_inverse_witness :
  c_transform_color {| green_to_red := 0x80; green_to_blue := 0x7f; red_to_blue := 0xd3 |}
    (c_transform_color_inverse {| green_to_red := 0x80; green_to_blue := 0x7f; red_to_blue := 0xd3 |}
       [0xdeadbeef; 0; 0xffffffff]) = [0xdeadbeef; 0; 0xffffffff].
Proof.
  apply transform_color_after_inverse. repeat constructor; unfold is_u32; lia.
Defined.

(** X: with all three multipliers zero, the forward and the inverse color
    transform leave every array of 32-bit pixels unchanged. *)
Theorem transform_color_zero_multipliers (data : list Z) (Hdata : Forall is_u32 data) :
  let m0 := {| green_to_red := 0; green_to_blue := 0; red_to_blue := 0 |} in
  c_transform_color m0 data = data /\ c_transform_color_inverse m0 data = data.
Proof.
  intros m0.
  assert (HD : forall c, ColorTransformDelta (i8 0) c = 0) by reflexivity.
  unfold c_transform_color, c_transform_color_inverse.
  induction Hdata as [| p data Hp _ [IH1 IH2]]; [split; reflexivity |].
  cbn [map]. rewrite IH1, IH2.
  rewrite transform_color_px_spec, transform_color_inverse_px_spec by exact Hp.
  cbv zeta. subst m0. cbn [green_to_red green_to_blue red_to_blue]. rewrite !HD.
  rewrite !Z.sub_0_r, !Z.add_0_r, (Z.mod_small (byte_at 2 p)), (Z.mod_small (byte_at 0 p))
    by (pose proof (byte_at_byte 2 p); pose proof (byte_at_byte 0 p); unfold is_byte in *; lia).
  rewrite <- (pack_bytes p Hp). split; reflexivity.
Qed.

Lemma transform_color_zero_multipliers_witness :
  c_transform_color {| green_to_red := 0; green_to_blue := 0; red_to_blue := 0 |}
    [0x12345678; 0xfedcba98] = [0x12345678; 0xfedcba98].
Proof.
  refine (proj1 (transform_color_zero_multipliers _ _)).
  repeat constructor; unfold is_u32; lia.
Defined.

(** ** Allocation stub properties *)

Lemma safe_alloc_overflow (nmemb size : Z) : 0 < nmemb -> 0 <= size -> 2 ^ 64 <= nmemb * size ->
  u64 (nmemb * size) / nmemb <> size.
Proof.
  intros Hn Hs Hov E. unfold u64 in E.
  pose proof (Z.mul_div_le ((nmemb * size) mod 2 ^ 64) nmemb Hn) as Hle.
  rewrite E in Hle. pose proof (Z.mod_pos_bound (nmemb * size) (2 ^ 64)). lia.
Qed.

Lemma safe_alloc_fits (nmemb size : Z) : 0 < nmemb -> 0 <= size -> nmemb * size < 2 ^ 64 ->
  u64 (nmemb * size) = nmemb * size /\ u64 (nmemb * size) / nmemb = size.
Proof.
  intros Hn Hs Hfit. unfold u64. rewrite Z.mod_small by nia.
  split; [reflexivity |]. rewrite Z.mul_comm. apply Z.div_mul. lia.
Qed.

(** X: for any [nmemb] and [size] in the 64-bit range, [WebPSafeMalloc]
    calls [malloc] exactly when the true product [nmemb * size] is nonzero
    and fits in 64 bits, and then with that product; otherwise (a zero
    count, a zero size or a wrapping product) it returns NULL. *)
Theorem WebPSafeMalloc_spec (nmemb size : Z)
  (Hn : 0 <= nmemb < 2 ^ 64) (Hs : 0 <= size < 2 ^ 64) :
  WebPSafeMalloc nmemb size =
  if (0 <? nmemb * size) && (nmemb * size <? 2 ^ 64) then Some (nmemb * size) else None.
Proof.
  unfold WebPSafeMalloc.
  destruct (Z.eqb_spec nmemb 0) as [-> | Hn0]; [reflexivity |]. cbn [negb andb].
  destruct (Z.ltb_spec (nmemb * size) (2 ^ 64)) as [Hfit | Hov].
  - destruct (safe_alloc_fits nmemb size ltac:(lia) ltac:(lia) Hfit) as [-> ->].
    rewrite Z.eqb_refl. cbn [negb].
    destruct (Z.eqb_spec (nmemb * size) 0); destruct (Z.ltb_spec 0 (nmemb * size));
      cbn [andb]; first [reflexivity | exfalso; lia].
  - destruct (Z.eqb_spec (u64 (nmemb * size) / nmemb) size) as [E | _].
    + exfalso. exact (safe_alloc_overflow nmemb size ltac:(lia) ltac:(lia) Hov E).
    + rewrite andb_false_r. reflexivity.
Qed.

Lemma WebPSafeMalloc_spec_witness :
  WebPSafeMalloc (2 ^ 32) (2 ^ 32) = None /\ WebPSafeMalloc 3 (2 ^ 61) = Some (3 * 2 ^ 61).
Proof.
  split.
  - rewrite WebPSafeMalloc_spec by lia. reflexivity.
  - rewrite WebPSafeMalloc_spec by lia. reflexivity.
Defined.

(** X: for any [nmemb] and [size] in the 64-bit range, [WebPSafeCalloc]
    calls [calloc(nmemb, size)] exactly when the true product
    [nmemb * size] is nonzero and fits in 64 bits; otherwise it returns
    NULL. *)
Theorem WebPSafeCalloc_spec (nmemb size : Z)
  (Hn : 0 <= nmemb < 2 ^ 64) (Hs : 0 <= size < 2 ^ 64) :
  WebPSafeCalloc nmemb size =
  if (0 <? nmemb * size) && (nmemb * size <? 2 ^ 64) then Some (nmemb, size) else None.
Proof.
  unfold WebPSafeCalloc.
  destruct (Z.eqb_spec nmemb 0) as [-> | Hn0]; [reflexivity |]. cbn [negb andb].
  destruct (Z.ltb_spec (nmemb * size) (2 ^ 64)) as [Hfit | Hov].
  - destruct (safe_alloc_fits nmemb size ltac:(lia) ltac:(lia) Hfit) as [-> ->].
    rewrite Z.eqb_refl. cbn [negb].
    destruct (Z.eqb_spec (nmemb * size) 0); destruct (Z.ltb_spec 0 (nmemb * size));
      cbn [andb]; first [reflexivity | exfalso; lia].
  - destruct (Z.eqb_spec (u64 (nmemb * size) / nmemb) size) as [E | _].
    + exfalso. exact (safe_alloc_overflow nmemb size ltac:(lia) ltac:(lia) Hov E).
    + rewrite andb_false_r. reflexivity.
Qed.

Lemma WebPSafeCalloc_spec_witness :
  WebPSafeCalloc (2 ^ 33) (2 ^ 31) = None /\ WebPSafeCalloc 0 5 = None /\
  WebPSafeCalloc 7 9 = Some (7, 9).
Proof.
  split; [| split].
  - rewrite WebPSafeCalloc_spec by lia. reflexivity.
  - rewrite WebPSafeCalloc_spec by lia. reflexivity.
  - rewrite WebPSafeCalloc_spec by lia. reflexivity.
Defined.
